(** * Import path rewriter ([fix-imports.py]): model and verification

    The script walks [src/], and in every file whose name matches [*.ts*]
    replaces alias imports ([from "@/lib/..."]) by relative ones.  This file
    embeds the script and the library functions it calls ([str.replace],
    [str.startswith], [re.finditer], [os.path.relpath], [Path.rglob], text-mode
    [open]) as executable definitions, and proves the properties of the
    specification about them.  The library functions are those of a POSIX
    platform ([posixpath], [os.linesep = "\n"]). *)

From Stdlib Require Import Ascii String List Arith Lia Bool NArith.
From stdpp Require Import base option list sorting gmap strings.

(** ** Text

    A Python [str] is modelled by the list of the bytes of its UTF-8
    encoding.  Every string the script searches for or inserts is ASCII, and
    an ASCII byte never occurs inside a multi-byte UTF-8 sequence, so
    searching and replacing on the encoding is searching and replacing on the
    code points. *)

Definition text := list ascii.

Definition lit (s : string) : text := list_ascii_of_string s.

Definition dquote : ascii := "034"%char.
Definition squote : ascii := "039"%char.
Definition backslash : ascii := "092"%char.
Definition slash : ascii := "/"%char.
Definition dot : ascii := "."%char.
Definition CR : ascii := "013"%char.
Definition LF : ascii := "010"%char.

(** [s.startswith(p)] *)
Fixpoint startswith (s p : text) {struct p} : bool :=
  match p, s with
  | [], _ => true
  | _ :: _, [] => false
  | a :: p', b :: s' => Ascii.eqb a b && startswith s' p'
  end.

(** [s.replace(old, new)] for a non-empty [old]: the occurrences of [old] are
    found from left to right without overlap; [skip] counts the characters of
    the occurrence just replaced that are still to be passed over. *)
Fixpoint replace_from (old new s : text) (skip : nat) : text :=
  match s with
  | [] => []
  | c :: s' =>
      match skip with
      | S k => replace_from old new s' k
      | O =>
          if startswith s old
          then new ++ replace_from old new s' (length old - 1)
          else c :: replace_from old new s' 0
      end
  end.

(** [s.replace(old, new)]; with an empty [old] Python inserts [new] before
    every character and at the end. *)
Definition str_replace (s old new : text) : text :=
  match old with
  | [] => new ++ flat_map (fun c => c :: new) s
  | _ :: _ => replace_from old new s 0
  end.

(** ** Regular expressions

    The four patterns of the script use literal characters and one character
    class; a pattern is a sequence of such atoms. *)

Inductive atom : Type :=
  | Chr (c : ascii)
  | Cls (cs : list ascii).

Definition regex := list atom.

Definition atom_accepts (a : atom) (c : ascii) : bool :=
  match a with
  | Chr x => Ascii.eqb x c
  | Cls cs => existsb (Ascii.eqb c) cs
  end.

Definition chars (s : string) : regex := map Chr (lit s).

(** The match of the pattern at the start of [s], if there is one. *)
Fixpoint match_at (re : regex) (s : text) : option text :=
  match re with
  | [] => Some []
  | a :: re' =>
      match s with
      | [] => None
      | c :: s' =>
          if atom_accepts a c
          then option_map (cons c) (match_at re' s')
          else None
      end
  end.

(** [re.finditer(pattern, s)], as the list of [match.group(0)]: matches are
    found from left to right and do not overlap. *)
Fixpoint finditer_from (re : regex) (s : text) (skip : nat) : list text :=
  match s with
  | [] =>
      match skip, match_at re [] with
      | O, Some m => [m]
      | _, _ => []
      end
  | _ :: s' =>
      match skip with
      | S k => finditer_from re s' k
      | O =>
          match match_at re s with
          | Some m => m :: finditer_from re s' (length m - 1)
          | None => finditer_from re s' 0
          end
      end
  end.

Definition finditer (re : regex) (s : text) : list text := finditer_from re s 0.

(** [p in s] for strings: [p] occurs in [s] as a substring. *)
Fixpoint contains (s p : text) : bool :=
  match s with
  | [] => startswith [] p
  | _ :: s' => startswith s p || contains s' p
  end.

(** ** Paths ([pathlib], [posixpath])

    A path is the list of its components.  The files the script works on are
    named relative to the working directory ([Path('src').rglob] yields
    [src/...]); the target directories are absolute
    ([Path('src').absolute() / target_dir]). *)

Definition path := list text.

Inductive exn : Type :=
  | ValueError
  | FileNotFoundError
  | IsADirectoryError
  | UnicodeDecodeError.

(** [Path(p).parent] *)
Definition parent (p : path) : path := removelast p.

(** One round of the loop of [posixpath.normpath] on an absolute path:
    empty components and [.] are skipped, [..] pops the last component kept
    (at the root there is nothing to pop), any other component is kept. *)
Definition norm_step (new_comps : path) (comp : text) : path :=
  if decide (comp = [] ∨ comp = lit ".") then new_comps
  else if decide (comp = lit "..") then removelast new_comps
  else new_comps ++ [comp].

Definition normpath (comps : path) : path := fold_left norm_step comps [].

(** [os.path.commonprefix] of two component lists. *)
Fixpoint commonprefix (a b : path) : path :=
  match a, b with
  | x :: a', y :: b' => if decide (x = y) then x :: commonprefix a' b' else []
  | _, _ => []
  end.

(** [posixpath.join] of components that are not empty and hold no slash (as
    components obtained by splitting at the separator are). *)
Fixpoint join (comps : path) : text :=
  match comps with
  | [] => []
  | [c] => c
  | c :: rest => c ++ slash :: join rest
  end.

(** [posixpath.relpath(path, start)] for an absolute [path] and a [start]
    relative to the working directory [cwd].  [abspath] joins a relative path
    to [os.getcwd()] and normalises.  The function is given a [Path] object,
    never an empty string, so it does not raise its [ValueError]. *)
Definition posix_relpath (cwd : path) (to_path start : path) : exn + text :=
  let start_list := normpath (cwd ++ start) in
  let path_list := normpath to_path in
  let i := length (commonprefix start_list path_list) in
  let rel_list := repeat (lit "..") (length start_list - i) ++ drop i path_list in
  inr (match rel_list with [] => lit "." | _ :: _ => join rel_list end).

(** ** The rewriter *)

Section Rewriter.

(** [os.getcwd()], and [os.path.relpath] of the platform the script runs
    on: [inl e] when the call raises [e]. *)
Variable cwd : path.
Variable os_relpath : path -> path -> exn + text.

(** [get_relative_path(from_file, to_dir)]: the bare [except] turns every
    error of the computation into [None]. *)
Definition get_relative_path (from_file to_dir : path) : option text :=
  let from_dir := parent from_file in
  let to_path := to_dir in
  match os_relpath to_path from_dir with
  | inr r =>
      let rel := str_replace r [backslash] [slash] in
      Some (if startswith rel [dot] then rel else lit "./" ++ rel)
  | inl _ => None
  end.

(** [Path('src').absolute()] *)
Definition src_dir : path := cwd ++ [lit "src"].

Definition patterns : list (regex * text) :=
  [ (chars "from " ++ [Cls [dquote; squote]] ++ chars "@/components/", lit "components");
    (chars "from " ++ [Cls [dquote; squote]] ++ chars "@/lib/", lit "lib");
    (chars "from " ++ [Cls [dquote; squote]] ++ chars "@/context/", lit "context");
    (chars "from " ++ [Cls [dquote; squote]] ++ chars "@/types", lit "types") ].

(** [old_import.replace('@/', rel_path + '/')] *)
Definition new_import (old_import rel_path : text) : text :=
  str_replace old_import (lit "@/") (rel_path ++ lit "/").

(** The body of the inner loop, for one match: [if rel_path:] is false for
    [None] and for the empty string. *)
Definition rewrite_match (file_path : path) (target_dir : text)
    (content old_import : text) : text :=
  let target_path := src_dir ++ [target_dir] in
  match get_relative_path file_path target_path with
  | Some ((_ :: _) as rel_path) =>
      str_replace content old_import (new_import old_import rel_path)
  | _ => content
  end.

(** The body of the outer loop, for one pattern: the matches are those of
    the content the loop starts with, the replacements go to the current
    content. *)
Definition rewrite_pattern (file_path : path) (content : text)
    (p : regex * text) : text :=
  fold_left (rewrite_match file_path (snd p)) (finditer (fst p) content) content.

(** What [fix_imports] makes of the text it has read. *)
Definition rewrite_content (file_path : path) (content : text) : text :=
  fold_left (rewrite_pattern file_path) patterns content.

End Rewriter.

(** ** Files

    Text-mode [open(..., encoding='utf-8')]: reading decodes UTF-8 (strictly)
    and, in universal-newlines mode, turns [\r\n] and a lone [\r] into [\n];
    writing turns [\n] into [os.linesep], which is [\n] on POSIX, and encodes. *)

Definition byte_in (lo hi : N) (c : ascii) : bool :=
  ((lo <=? N_of_ascii c) && (N_of_ascii c <=? hi))%N.

Definition is_ascii (c : ascii) : bool := byte_in 0 127 c.
Definition continuation (c : ascii) : bool := byte_in 128 191 c.

(** The second byte of a three-byte sequence excludes over-long forms and
    surrogates, the second byte of a four-byte sequence over-long forms and
    code points above U+10FFFF. *)
Definition second_of_3 (b0 b1 : ascii) : bool :=
  if byte_in 224 224 b0 then byte_in 160 191 b1
  else if byte_in 237 237 b0 then byte_in 128 159 b1
  else continuation b1.

Definition second_of_4 (b0 b1 : ascii) : bool :=
  if byte_in 240 240 b0 then byte_in 144 191 b1
  else if byte_in 244 244 b0 then byte_in 128 143 b1
  else continuation b1.

Fixpoint utf8_valid (b : text) : bool :=
  match b with
  | [] => true
  | b0 :: r =>
      if is_ascii b0 then utf8_valid r
      else if byte_in 194 223 b0 then
        match r with
        | b1 :: r1 => continuation b1 && utf8_valid r1
        | _ => false
        end
      else if byte_in 224 239 b0 then
        match r with
        | b1 :: b2 :: r2 => second_of_3 b0 b1 && continuation b2 && utf8_valid r2
        | _ => false
        end
      else if byte_in 240 244 b0 then
        match r with
        | b1 :: b2 :: b3 :: r3 =>
            second_of_4 b0 b1 && continuation b2 && continuation b3 && utf8_valid r3
        | _ => false
        end
      else false
  end.

Fixpoint universal_newlines (s : text) : text :=
  match s with
  | [] => []
  | c :: s' =>
      if Ascii.eqb c CR then
        LF :: match s' with
              | c' :: s'' =>
                  if Ascii.eqb c' LF then universal_newlines s''
                  else universal_newlines s'
              | [] => []
              end
      else c :: universal_newlines s'
  end.

Inductive entry : Type :=
  | Dir
  | File (data : text).

(** What the script prints. *)
Inductive line : Type :=
  | Fixed (file_path : path)
  | Total (files_processed : nat).

(** The state the script acts on: the file tree, the paths it has opened (in
    order) and its standard output. *)
Record world : Type := World {
  fs : gmap path entry;
  opened : list path;
  stdout : list line
}.

Definition log_open (w : world) (p : path) : world :=
  World (fs w) (opened w ++ [p]) (stdout w).

Definition print (w : world) (l : line) : world :=
  World (fs w) (opened w) (stdout w ++ [l]).

(** [open(p, 'r', encoding='utf-8').read()] *)
Definition read_text (w : world) (p : path) : exn + text :=
  match fs w !! p with
  | None => inl FileNotFoundError
  | Some Dir => inl IsADirectoryError
  | Some (File data) =>
      if utf8_valid data then inr (universal_newlines data)
      else inl UnicodeDecodeError
  end.

(** [open(p, 'w', encoding='utf-8').write(content)] on an existing file *)
Definition write_text (w : world) (p : path) (content : text) : world :=
  World (<[p := File content]> (fs w)) (opened w) (stdout w).

(** [Path.rglob('*.ts*')]: [fnmatch] of a name against [*.ts*] *)
Definition glob_ts (name : text) : bool := contains name (lit ".ts").

Definition under_src (p : path) : bool :=
  match p with
  | root :: _ :: _ => bool_decide (root = lit "src")
  | _ => false
  end.

Definition selected (p : path) : bool :=
  under_src p && glob_ts (List.last p []).

(** The order of the walk.  [Path.rglob] visits the directories in pre-order,
    [src] first, and yields every matching child of a directory before it
    descends into the subdirectories.  The order of the children of one
    directory is that of [os.scandir], which the platform chooses; the model
    takes the names in byte order.  A path [p] then comes before [q] when the
    directory of [p], as a list of components, is before that of [q], a
    directory being before everything below it, or when both are in the same
    directory and the name of [p] is the smaller one. *)
Definition text_compare : text -> text -> comparison :=
  list_compare Ascii.compare.

Definition path_compare : path -> path -> comparison :=
  list_compare text_compare.

Definition walk_compare (p q : path) : comparison :=
  match path_compare (parent p) (parent q) with
  | Eq => text_compare (List.last p []) (List.last q [])
  | c => c
  end.

Definition walk_leb (p q : path) : bool :=
  match walk_compare p q with
  | Gt => false
  | _ => true
  end.

Definition walk_le (p q : path) : Prop := walk_leb p q = true.

#[global] Instance walk_le_dec (p q : path) : Decision (walk_le p q) :=
  bool_eq_dec (walk_leb p q) true.

(** [Path('src').rglob('*.ts*')]: every entry below [src], file or directory,
    whose name matches, in the order of the walk.  The script rewrites files
    while the generator runs, which neither adds nor removes an entry, so the
    paths are those of the tree at the start. *)
Definition rglob (tree : gmap path entry) : list path :=
  merge_sort walk_le (List.filter selected (map fst (map_to_list tree))).

Section Script.

Variable cwd : path.
Variable os_relpath : path -> path -> exn + text.

(** [fix_imports(file_path)]: the state after the call, and its result or
    the exception that leaves it. *)
Definition fix_imports (w : world) (file_path : path) : world * (exn + bool) :=
  let w := log_open w file_path in
  match read_text w file_path with
  | inl e => (w, inl e)
  | inr content =>
      let content := rewrite_content cwd os_relpath file_path content in
      let w := log_open w file_path in
      (write_text w file_path content, inr true)
  end.

(** The loop of the script over the paths [rglob] yields; an exception ends
    the run. *)
Fixpoint process (files : list path) (w : world) (files_processed : nat)
    : world * (exn + nat) :=
  match files with
  | [] => (w, inr files_processed)
  | file_path :: rest =>
      match fix_imports w file_path with
      | (w, inl e) => (w, inl e)
      | (w, inr true) => process rest (print w (Fixed file_path)) (files_processed + 1)
      | (w, inr false) => process rest w files_processed
      end
  end.

(** The script: the state it leaves, and the total it prints or the
    exception that ends it. *)
Definition run (w : world) : world * (exn + nat) :=
  match process (rglob (fs w)) w 0 with
  | (w, inr n) => (print w (Total n), inr n)
  | (w, inl e) => (w, inl e)
  end.

End Script.

(** ** Replacement at the span of each match

    What the specification contrasts the script with: every match of the
    pattern is replaced where it stands, by the import made from that match
    and a relative path computed for it. *)

Section Spans.

Variable cwd : path.
Variable os_relpath : path -> path -> exn + text.

Definition span_import (file_path : path) (target_dir old_import : text) : text :=
  match get_relative_path os_relpath file_path (src_dir cwd ++ [target_dir]) with
  | Some ((_ :: _) as rel_path) => new_import old_import rel_path
  | _ => old_import
  end.

Fixpoint rewrite_spans_from (file_path : path) (p : regex * text)
    (s : text) (skip : nat) : text :=
  match s with
  | [] => []
  | c :: s' =>
      match skip with
      | S k => rewrite_spans_from file_path p s' k
      | O =>
          match match_at (fst p) s with
          | Some ((_ :: _) as m) =>
              span_import file_path (snd p) m
                ++ rewrite_spans_from file_path p s' (length m - 1)
          | _ => c :: rewrite_spans_from file_path p s' 0
          end
      end
  end.

Definition rewrite_spans (file_path : path) (p : regex * text) (s : text) : text :=
  rewrite_spans_from file_path p s 0.

End Spans.

(** ** Values for the examples *)

Definition home : path := [lit "home"; lit "dev"; lit "portal"].

Definition quoted (s : string) : text := dquote :: lit s ++ [dquote].

(** ** Definitions for the proofs

    Every string the script looks for starts with the letter [f] and holds
    no other [f], and so does every string it inserts.  Cut at each [f], a
    text is a head and a list of segments, and the scanning functions act on
    each segment on its own. *)

Definition mark : ascii := "f"%char.

Definition markfree (t : text) : bool :=
  forallb (fun c => negb (Ascii.eqb c mark)) t.

Definition unsegs (h : text) (l : list text) : text :=
  h ++ flat_map (cons mark) l.

Fixpoint segs (s : text) : text * list text :=
  match s with
  | [] => ([], [])
  | c :: s' =>
      let (h, l) := segs s' in
      if Ascii.eqb c mark then ([], h :: l) else (c :: h, l)
  end.

(** A scan that replaces, of which [replace_from] and [rewrite_spans_from]
    are instances: [rule s] is the text to put and the number of characters
    it stands for, when something is to be replaced at the start of [s]. *)
Fixpoint subst_from (rule : text -> option (text * nat)) (s : text) (skip : nat) : text :=
  match s with
  | [] => []
  | c :: s' =>
      match skip with
      | S k => subst_from rule s' k
      | O =>
          match rule s with
          | Some (out, n) => out ++ subst_from rule s' (n - 1)
          | None => c :: subst_from rule s' 0
          end
      end
  end.

Definition seg_subst (rule : text -> option (text * nat)) (t : text) : text :=
  match rule (mark :: t) with
  | Some (out, n) => out ++ drop (n - 1) t
  | None => mark :: t
  end.

(** The text after a segment is empty or starts with the mark. *)
Definition boundary (u : text) : Prop := u = [] \/ exists v, u = mark :: v.

Definition replace_rule (old new s : text) : option (text * nat) :=
  if startswith s old then Some (new, length old) else None.

(** What [replace] does to a segment, for an [old] and a [new] given without
    their leading mark. *)
Definition seg_replace (o n t : text) : text :=
  if startswith t o then n ++ drop (length o) t else t.

Definition atom_chars (a : atom) : list ascii :=
  match a with
  | Chr c => [c]
  | Cls cs => cs
  end.

(** The strings a pattern matches. *)
Fixpoint language (re : regex) : list text :=
  match re with
  | [] => [[]]
  | a :: re' => flat_map (fun c => map (cons c) (language re')) (atom_chars a)
  end.

Definition rejects_mark (re : regex) : bool :=
  forallb (fun a => negb (atom_accepts a mark)) re.

Definition seg_match (re : regex) (t : text) : list text :=
  match match_at re (mark :: t) with
  | Some m => [m]
  | None => []
  end.

(** The characters of the relative paths the script computes for a file
    below [src]: dots, slashes and the letters of the target directories. *)
Definition relchar (c : ascii) : bool :=
  existsb (Ascii.eqb c) (lit "./componentslibcontexttypes").

Definition rel_ok (rel : text) : bool :=
  startswith rel [dot] && forallb relchar rel.

(** What the loop over the matches of one pattern makes of a segment. *)
Definition seg_span (re : regex) (rel t : text) : text :=
  match match_at re (mark :: t) with
  | Some m => tail (new_import m rel) ++ drop (length m - 1) t
  | None => t
  end.

Definition span_rule (cwd : path) (os_relpath : path -> path -> exn + text)
    (fp : path) (p : regex * text) (s : text) : option (text * nat) :=
  match match_at p.1 s with
  | Some ((_ :: _) as m) => Some (span_import cwd os_relpath fp p.2 m, length m)
  | _ => None
  end.

(** A component that [normpath] keeps. *)
Definition plain (c : text) : bool :=
  negb (bool_decide (c = [] \/ c = lit "." \/ c = lit "..")).

(** The paths [rglob] yields: [src/d1/.../dn/name]. *)
Definition src_file (fp : path) : bool :=
  match fp with
  | root :: rest =>
      bool_decide (root = lit "src") && negb (bool_decide (rest = []))
      && forallb plain (removelast rest)
  | [] => false
  end.

(** The directories between [src] and the file. *)
Definition dirs_of (fp : path) : path := removelast (tail fp).

(** What [get_relative_path] returns for a file in [src/dirs] and the
    directory [src/target], whatever the working directory. *)
Definition src_rel (dirs : path) (target : text) : text :=
  let k := length (commonprefix dirs [target]) in
  let rel_list := repeat (lit "..") (length dirs - k) ++ drop k [target] in
  let r := match rel_list with [] => lit "." | _ :: _ => join rel_list end in
  let rel := str_replace r [backslash] [slash] in
  if startswith rel [dot] then rel else lit "./" ++ rel.

(** What the loop over the patterns makes of a segment. *)
Definition seg_pattern (cwd : path) (os_relpath : path -> path -> exn + text)
    (fp : path) (t : text) (p : regex * text) : text :=
  match get_relative_path os_relpath fp (src_dir cwd ++ [p.2]) with
  | Some rel => seg_span p.1 rel t
  | None => t
  end.

(** No pattern matches at the segment. *)
Definition clean (t : text) : Prop :=
  forall p, In p patterns -> match_at p.1 (mark :: t) = None.

(** A character that is ASCII and not a carriage return. *)
Definition goodchar (c : ascii) : bool := is_ascii c && negb (Ascii.eqb c CR).

Definition no_cr (s : text) : bool := forallb (fun c => negb (Ascii.eqb c CR)) s.

(** The eight strings the four patterns match. *)
Definition aliases : list text := flat_map (fun p => language p.1) patterns.

Definition has_alias_import (s : text) : bool := existsb (contains s) aliases.

Definition x_ts : path := [lit "src"; lit "components"; lit "x.ts"].
Definition main_ts : path := [lit "src"; lit "main.ts"].
Definition lib_pattern : regex * text :=
  (chars "from " ++ [Cls [dquote; squote]] ++ chars "@/lib/", lit "lib").

Definition import_lib : text :=
  lit "import { a } from " ++ quoted "@/lib/foo" ++ lit ";".
Definition import_types : text :=
  lit "import { T } from " ++ quoted "@/types" ++ lit ";".

(** A tree that holds one file. *)
Definition single (fp : path) (data : text) : world :=
  World {[ fp := File data ]} [] [].

(** The state after one run of [fix_imports] on [src/components/x.ts]. *)
Definition rewritten_once : world :=
  (fix_imports home (posix_relpath home) (single x_ts import_lib) x_ts).1.



(** An [os.path.relpath] that always raises. *)
Definition raising_relpath (to_path start : path) : exn + text := inl ValueError.

(** A file without alias imports whose lines end in carriage return and
    line feed. *)
Definition crlf_data : text :=
  lit "const a = 1;" ++ [CR; LF] ++ lit "const b = 2;" ++ [CR; LF].

Definition plain_data : text := lit "export const answer = 42;" ++ [LF].

Definition mixed_lib : text :=
  lit "import a from " ++ quoted "@/lib/a" ++ lit "; import b from '@/lib/b'; import c from "
  ++ quoted "@/lib/a" ++ lit ";".

(** A file the script has nothing left to do on: it decodes, has no
    carriage return and no alias import. *)
Definition settled (tree : gmap path entry) (p : path) : Prop :=
  exists c, tree !! p = Some (File c) /\ utf8_valid c = true
    /\ no_cr c = true /\ has_alias_import c = false.

(** What a path names: nothing, a directory or a file. *)
Inductive kind : Type := Absent | Directory | Regular.

Definition kind_of (e : option entry) : kind :=
  match e with
  | None => Absent
  | Some Dir => Directory
  | Some (File _) => Regular
  end.

(** [../] repeated. *)
Definition ups (n : nat) : text := concat (repeat (lit "../") n).

(** What every walk of [Path.rglob] has in common, whatever the order in
    which the platform lists a directory: a path in a directory comes before
    every path in a directory below it. *)
Definition walk_order (files : list path) : Prop :=
  forall pre dir name post d name',
    files = pre ++ (dir ++ [name]) :: post ->
    In (dir ++ d ++ [name']) pre -> d = [].

(** Two lists of components that do not start with the same component. *)
Definition diverge (a b : path) : bool :=
  match a, b with
  | x :: _, y :: _ => negb (bool_decide (x = y))
  | _, _ => true
  end.

(** A tree with a directory whose name matches the pattern of [rglob]. *)
Definition with_directory : world :=
  World (<[ [lit "src"; lit "pkg.ts"] := Dir ]> {[ x_ts := File import_lib ]}) [] [].

(** ** Strings: the equations of the scanning functions *)

Lemma ascii_eqb_refl (c : ascii) : Ascii.eqb c c = true.
Proof. by apply Ascii.eqb_eq. Qed.

Lemma startswith_spec (s p : text) :
  startswith s p = true <-> exists r, s = p ++ r.
Proof.
  revert s; induction p as [|a p IH]; intros s; simpl.
  - split; [intros _; by exists s | done].
  - destruct s as [|b s].
    + split; [done | intros [r Hr]; discriminate].
    + rewrite andb_true_iff, Ascii.eqb_eq, IH. split.
      * intros [-> [r ->]]. by exists r.
      * intros [r Hr]. injection Hr as -> ->. eauto.
Qed.

Lemma startswith_app (p r : text) : startswith (p ++ r) p = true.
Proof. apply startswith_spec. by exists r. Qed.

Lemma startswith_split (s p : text) :
  startswith s p = true -> s = p ++ drop (length p) s.
Proof.
  intros [r ->]%startswith_spec. by rewrite drop_app_length.
Qed.

Lemma startswith_head (c a : ascii) (s p : text) :
  c <> a -> startswith (c :: s) (a :: p) = false.
Proof.
  intros Hne. simpl. destruct (Ascii.eqb a c) eqn:E; [|done].
  apply Ascii.eqb_eq in E. congruence.
Qed.

Lemma replace_from_skip (old new x s : text) :
  replace_from old new (x ++ s) (length x) = replace_from old new s 0.
Proof. induction x as [|c x IH]; [done | exact IH]. Qed.

Lemma str_replace_nil (old new : text) : old <> [] -> str_replace [] old new = [].
Proof. by destruct old. Qed.

Lemma str_replace_hit (old new rest : text) :
  old <> [] ->
  str_replace (old ++ rest) old new = new ++ str_replace rest old new.
Proof.
  destruct old as [|a old]; [done | intros _].
  unfold str_replace.
  change ((a :: old) ++ rest) with (a :: (old ++ rest)).
  cbn [replace_from].
  change (a :: (old ++ rest)) with ((a :: old) ++ rest).
  rewrite startswith_app.
  replace (length (a :: old) - 1) with (length old) by (simpl; lia).
  by rewrite replace_from_skip.
Qed.

Lemma str_replace_miss (old new : text) (c : ascii) (s : text) :
  old <> [] -> startswith (c :: s) old = false ->
  str_replace (c :: s) old new = c :: str_replace s old new.
Proof.
  destruct old as [|a old]; [done | intros _ Hmiss].
  unfold str_replace. cbn [replace_from]. by rewrite Hmiss.
Qed.

Lemma match_at_prefix (re : regex) (s m : text) :
  match_at re s = Some m -> s = m ++ drop (length m) s /\ length m = length re.
Proof.
  revert s m; induction re as [|a re IH]; intros s m; simpl.
  - intros [= <-]. by rewrite drop_0.
  - destruct s as [|c s]; [done|].
    destruct (atom_accepts a c); [|done].
    destruct (match_at re s) as [m'|] eqn:E; [|done].
    intros [= <-]. destruct (IH _ _ E) as [Hs Hl]. simpl.
    split; [by rewrite <- Hs | by rewrite Hl].
Qed.

Lemma finditer_from_skip (re : regex) (x s : text) :
  finditer_from re (x ++ s) (length x) = finditer_from re s 0.
Proof. induction x as [|c x IH]; [done | exact IH]. Qed.

Lemma finditer_hit (re : regex) (m rest : text) :
  m <> [] -> match_at re (m ++ rest) = Some m ->
  finditer re (m ++ rest) = m :: finditer re rest.
Proof.
  destruct m as [|c m]; [done | intros _ Hm].
  unfold finditer.
  change ((c :: m) ++ rest) with (c :: (m ++ rest)) in *.
  cbn [finditer_from]. rewrite Hm.
  replace (length (c :: m) - 1) with (length m) by (simpl; lia).
  by rewrite finditer_from_skip.
Qed.

Lemma finditer_miss (re : regex) (c : ascii) (s : text) :
  match_at re (c :: s) = None -> finditer re (c :: s) = finditer re s.
Proof. unfold finditer. simpl. by intros ->. Qed.

(** ** Segments *)

Lemma unsegs_segs (s : text) : unsegs (segs s).1 (segs s).2 = s.
Proof.
  induction s as [|c s IH]; [done|]. simpl.
  destruct (segs s) as [h l]. simpl in IH.
  destruct (Ascii.eqb c mark) eqn:E; simpl.
  - apply Ascii.eqb_eq in E. subst c. unfold unsegs in *. simpl. by rewrite IH.
  - unfold unsegs in *. simpl. by rewrite IH.
Qed.

Lemma segs_markfree (s : text) :
  markfree (segs s).1 = true /\ Forall (fun t => markfree t = true) (segs s).2.
Proof.
  induction s as [|c s [IH1 IH2]]; [by split|]. simpl.
  destruct (segs s) as [h l]. simpl in *.
  destruct (Ascii.eqb c mark) eqn:E; simpl.
  - split; [done | by constructor].
  - rewrite E. by split.
Qed.

Lemma markfree_app (a b : text) :
  markfree (a ++ b) = markfree a && markfree b.
Proof. apply forallb_app. Qed.

Lemma markfree_cons (c : ascii) (t : text) :
  markfree (c :: t) = true -> c <> mark /\ markfree t = true.
Proof.
  simpl. intros [Hc Ht]%andb_true_iff. split; [|done].
  intros ->. by rewrite ascii_eqb_refl in Hc.
Qed.

Lemma markfree_drop (n : nat) (t : text) :
  markfree t = true -> markfree (drop n t) = true.
Proof.
  intros Ht. rewrite <- (take_drop n t), markfree_app in Ht.
  by apply andb_true_iff in Ht as [_ ?].
Qed.

Lemma boundary_flat (l : list text) : boundary (flat_map (cons mark) l).
Proof. destruct l; [by left | right; by eexists]. Qed.

Section Segments.

Variable rule : text -> option (text * nat).

Hypothesis rule_mark : forall c s, c <> mark -> rule (c :: s) = None.
Hypothesis rule_local : forall t u,
  markfree t = true -> boundary u -> rule (mark :: t ++ u) = rule (mark :: t).
Hypothesis rule_width : forall t out n,
  markfree t = true -> rule (mark :: t) = Some (out, n) -> 1 <= n <= S (length t).

Lemma subst_from_skip (x s : text) (k : nat) :
  length x = k -> subst_from rule (x ++ s) k = subst_from rule s 0.
Proof. intros <-. induction x as [|c x IH]; [done | exact IH]. Qed.

Lemma subst_head (h r : text) :
  markfree h = true ->
  subst_from rule (h ++ r) 0 = h ++ subst_from rule r 0.
Proof.
  induction h as [|c h IH]; [done|].
  intros [Hc Hh]%markfree_cons. simpl.
  rewrite (rule_mark c (h ++ r) Hc). by rewrite IH.
Qed.

Lemma subst_flat (l : list text) :
  Forall (fun t => markfree t = true) l ->
  subst_from rule (flat_map (cons mark) l) 0 = flat_map (seg_subst rule) l.
Proof.
  induction 1 as [|t l Ht Hl IH]; [done|].
  cbn [flat_map]. unfold seg_subst at 1.
  change ((mark :: t) ++ flat_map (cons mark) l)
    with (mark :: (t ++ flat_map (cons mark) l)).
  cbn [subst_from].
  rewrite (rule_local t _ Ht (boundary_flat l)).
  destruct (rule (mark :: t)) as [[out n]|] eqn:E.
  - destruct (rule_width _ _ _ Ht E) as [Hn1 Hn2].
    rewrite <- (take_drop (n - 1) t) at 1.
    rewrite <- (app_assoc (take (n - 1) t)).
    rewrite subst_from_skip by (rewrite length_take; lia).
    rewrite subst_head by (by apply markfree_drop).
    rewrite IH. by rewrite <- !app_assoc.
  - rewrite subst_head by done. by rewrite IH.
Qed.

Lemma subst_unsegs (h : text) (l : list text) :
  markfree h = true -> Forall (fun t => markfree t = true) l ->
  subst_from rule (unsegs h l) 0 = h ++ flat_map (seg_subst rule) l.
Proof.
  intros Hh Hl. unfold unsegs. by rewrite subst_head, subst_flat.
Qed.

End Segments.

Lemma replace_from_subst (old new s : text) (k : nat) :
  replace_from old new s k = subst_from (replace_rule old new) s k.
Proof.
  revert k; induction s as [|c s IH]; intros k; [done|].
  cbn [replace_from subst_from]. destruct k as [|k]; [|apply IH].
  unfold replace_rule at 1. destruct (startswith (c :: s) old); by rewrite IH.
Qed.

Lemma startswith_boundary (o t u : text) :
  markfree o = true -> boundary u -> startswith (t ++ u) o = startswith t o.
Proof.
  revert t; induction o as [|a o IH]; intros t Ho Hu; [done|].
  apply markfree_cons in Ho as [Ha Ho].
  destruct t as [|b t]; simpl.
  - destruct Hu as [-> | [v ->]]; [done|]. simpl.
    destruct (Ascii.eqb a mark) eqn:E; [|done].
    by apply Ascii.eqb_eq in E.
  - by rewrite IH.
Qed.

Lemma startswith_length (s p : text) :
  startswith s p = true -> length p <= length s.
Proof. intros [r ->]%startswith_spec. rewrite length_app. lia. Qed.

Lemma str_replace_unsegs (old' new' h : text) (l : list text) :
  markfree old' = true -> markfree h = true ->
  Forall (fun t => markfree t = true) l ->
  str_replace (unsegs h l) (mark :: old') (mark :: new')
  = unsegs h (map (seg_replace old' new') l).
Proof.
  intros Ho Hh Hl. unfold str_replace. rewrite replace_from_subst.
  rewrite subst_unsegs; try done.
  - unfold unsegs. f_equal. clear Hl Hh.
    induction l as [|t l IH]; [done|]. cbn [flat_map map]. rewrite IH.
    f_equal. unfold seg_subst, replace_rule, seg_replace.
    cbn [startswith]. rewrite ascii_eqb_refl. cbn [andb].
    destruct (startswith t old'); [|done].
    by replace (length (mark :: old') - 1) with (length old') by (simpl; lia).
  - intros c s Hc. unfold replace_rule. by rewrite startswith_head.
  - intros t u Ht Hu. unfold replace_rule. cbn [startswith].
    by rewrite startswith_boundary.
  - intros t out n Ht. unfold replace_rule.
    destruct (startswith (mark :: t) (mark :: old')) eqn:E; [|done].
    intros [= <- <-]. apply startswith_length in E. simpl in *. lia.
Qed.

(** *** Matches *)

Lemma atom_accepts_chars (a : atom) (c : ascii) :
  atom_accepts a c = true <-> In c (atom_chars a).
Proof.
  destruct a as [x|cs]; simpl.
  - rewrite Ascii.eqb_eq. split; [intros ->; by left | by intros [-> | []]].
  - rewrite existsb_exists. split.
    + intros [x [Hx Hc]]. apply Ascii.eqb_eq in Hc. by subst.
    + intros Hc. exists c. by rewrite ascii_eqb_refl.
Qed.

Lemma match_at_language (re : regex) (s m : text) :
  match_at re s = Some m -> In m (language re).
Proof.
  revert s m; induction re as [|a re IH]; intros s m; simpl.
  - intros [= <-]. by left.
  - destruct s as [|c s]; [done|].
    destruct (atom_accepts a c) eqn:Ha; [|done].
    destruct (match_at re s) as [m'|] eqn:E; [|done].
    intros [= <-]. apply in_flat_map. exists c. split.
    + by apply atom_accepts_chars.
    + apply in_map. eauto.
Qed.

Lemma language_match (re : regex) (m r : text) :
  In m (language re) -> match_at re (m ++ r) = Some m.
Proof.
  revert m; induction re as [|a re IH]; intros m; simpl.
  - by intros [<- | []].
  - intros [c [Hc Hm]]%in_flat_map.
    apply in_map_iff in Hm as [m' [<- Hm']]. simpl.
    apply atom_accepts_chars in Hc. rewrite Hc.
    by rewrite (IH _ Hm').
Qed.

Lemma match_at_boundary (re : regex) (t u : text) :
  rejects_mark re = true -> boundary u ->
  match_at re (t ++ u) = match_at re t.
Proof.
  revert t; induction re as [|a re IH]; intros t Hre Hu; [done|].
  simpl in Hre. apply andb_true_iff in Hre as [Ha Hre].
  destruct t as [|b t]; simpl.
  - destruct Hu as [-> | [v ->]]; [done|].
    by destruct (atom_accepts a mark).
  - by rewrite IH.
Qed.

Section FindSegments.

Variable re : regex.

Hypothesis re_mark : forall c s, c <> mark -> match_at re (c :: s) = None.
Hypothesis re_local : forall t u,
  markfree t = true -> boundary u ->
  match_at re (mark :: t ++ u) = match_at re (mark :: t).
Hypothesis re_end : match_at re [] = None.

Lemma finditer_head (h r : text) :
  markfree h = true -> finditer re (h ++ r) = finditer re r.
Proof.
  induction h as [|c h IH]; [done|].
  intros [Hc Hh]%markfree_cons. simpl.
  rewrite finditer_miss by (by apply re_mark). by apply IH.
Qed.

Lemma finditer_nil : finditer re [] = [].
Proof. unfold finditer. simpl. by rewrite re_end. Qed.

Lemma finditer_flat (l : list text) :
  Forall (fun t => markfree t = true) l ->
  finditer re (flat_map (cons mark) l) = flat_map (seg_match re) l.
Proof.
  induction 1 as [|t l Ht Hl IH]; [apply finditer_nil|].
  cbn [flat_map]. unfold seg_match at 1.
  change ((mark :: t) ++ flat_map (cons mark) l)
    with (mark :: (t ++ flat_map (cons mark) l)).
  pose proof (re_local t _ Ht (boundary_flat l)) as Hloc.
  destruct (match_at re (mark :: t)) as [m|] eqn:E.
  - destruct (match_at_prefix _ _ _ E) as [Hs Hlen].
    destruct m as [|c m].
    { exfalso. pose proof (re_mark "a"%char [] ltac:(done)) as Hm.
      revert Hm Hlen. generalize re. by intros [|a r]. }
    simpl in Hs. injection Hs as <- Hs.
    rewrite Hs in Hloc |- *. rewrite <- app_assoc in Hloc |- *.
    change (mark :: m ++ ?x) with ((mark :: m) ++ x) in Hloc |- *.
    rewrite finditer_hit by done.
    rewrite finditer_head by (by apply markfree_drop).
    by rewrite IH.
  - rewrite finditer_miss by done.
    rewrite finditer_head by done. by rewrite IH.
Qed.

Lemma finditer_unsegs (h : text) (l : list text) :
  markfree h = true -> Forall (fun t => markfree t = true) l ->
  finditer re (unsegs h l) = flat_map (seg_match re) l.
Proof.
  intros Hh Hl. unfold unsegs. by rewrite finditer_head, finditer_flat.
Qed.

End FindSegments.

(** ** The alias strings and what replaces them *)

Lemma relchar_props (c : ascii) :
  relchar c = true ->
  c <> mark /\ is_ascii c = true /\ c <> CR /\ c <> backslash.
Proof.
  unfold relchar. intros [x [Hx Hc]]%existsb_exists.
  apply Ascii.eqb_eq in Hc. subst x.
  assert (Hall : forallb (fun c => negb (Ascii.eqb c mark) && is_ascii c
                    && negb (Ascii.eqb c CR) && negb (Ascii.eqb c backslash))
                   (lit "./componentslibcontexttypes") = true) by reflexivity.
  rewrite forallb_forall in Hall. specialize (Hall _ Hx).
  repeat (apply andb_true_iff in Hall as [Hall ?]).
  repeat split; try done; intros ->; by rewrite ascii_eqb_refl in *.
Qed.

Lemma rel_ok_inv (rel : text) :
  rel_ok rel = true ->
  exists rel', rel = dot :: rel' /\ markfree rel = true.
Proof.
  unfold rel_ok. intros [Hd Hall]%andb_true_iff.
  apply startswith_spec in Hd as [rel' ->]. exists rel'. split; [done|].
  unfold markfree. apply forallb_forall. intros c Hc.
  rewrite forallb_forall in Hall. specialize (Hall _ Hc).
  apply relchar_props in Hall as (Hm & _).
  destruct (Ascii.eqb c mark) eqn:E; [|done].
  by apply Ascii.eqb_eq in E.
Qed.

Lemma pattern_regex (p : regex * text) :
  In p patterns ->
  exists re', p.1 = Chr mark :: re' /\ rejects_mark re' = true.
Proof.
  intros Hp. repeat (destruct Hp as [<- | Hp]); try done;
    eexists; (split; [reflexivity | reflexivity]).
Qed.

Lemma alias_shape (p : regex * text) (m rel : text) :
  In p patterns -> In m (language p.1) ->
  exists m', m = mark :: m' /\ markfree m' = true /\
    new_import m rel = mark :: take 5 m' ++ (rel ++ lit "/") ++ drop 7 m'.
Proof.
  intros Hp Hm.
  repeat (destruct Hp as [<- | Hp]); try done;
    repeat (destruct Hm as [<- | Hm]); try done;
    eexists; (split; [reflexivity | split; reflexivity]).
Qed.

Lemma alias_no_rematch (p q : regex * text) (m rel' x : text) :
  In p patterns -> In q patterns -> In m (language p.1) ->
  match_at q.1 (mark :: tail (new_import m (dot :: rel')) ++ x) = None.
Proof.
  intros Hp Hq Hm.
  repeat (destruct Hp as [<- | Hp]); try done;
    repeat (destruct Hm as [<- | Hm]); try done;
    repeat (destruct Hq as [<- | Hq]); try done.
Qed.

Lemma marked_regex_mark (re' : regex) (c : ascii) (s : text) :
  c <> mark -> match_at (Chr mark :: re') (c :: s) = None.
Proof.
  intros Hc. cbn [match_at atom_accepts].
  destruct (Ascii.eqb mark c) eqn:E; [|done].
  apply Ascii.eqb_eq in E. congruence.
Qed.

Lemma marked_regex_local (re' : regex) (t u : text) :
  rejects_mark re' = true -> boundary u ->
  match_at (Chr mark :: re') (mark :: t ++ u) = match_at (Chr mark :: re') (mark :: t).
Proof.
  intros Hre Hu. cbn [match_at atom_accepts].
  by rewrite match_at_boundary.
Qed.

Lemma startswith_same_length (t a b : text) :
  startswith t a = true -> startswith t b = true -> length a = length b -> a = b.
Proof.
  intros [ra ->]%startswith_spec [rb Hb]%startswith_spec Hlen.
  by apply app_inj_1 in Hb as [? _].
Qed.

Lemma contains_head (h r o' : text) :
  markfree h = true -> contains (h ++ r) (mark :: o') = contains r (mark :: o').
Proof.
  induction h as [|c h IH]; [done|].
  intros [Hc Hh]%markfree_cons. cbn [app contains].
  rewrite startswith_head by done. by rewrite IH.
Qed.

Lemma contains_unsegs (h : text) (l : list text) (o' : text) :
  markfree h = true -> Forall (fun t => markfree t = true) l ->
  markfree o' = true ->
  contains (unsegs h l) (mark :: o') = existsb (fun t => startswith t o') l.
Proof.
  intros Hh Hl Ho. unfold unsegs. rewrite contains_head by done.
  induction Hl as [|t l Ht Hl IH]; [done|].
  cbn [flat_map existsb].
  change ((mark :: t) ++ flat_map (cons mark) l)
    with (mark :: (t ++ flat_map (cons mark) l)).
  cbn [contains startswith]. rewrite ascii_eqb_refl. cbn [andb].
  rewrite startswith_boundary by (done || apply boundary_flat).
  rewrite contains_head by done. by rewrite IH.
Qed.


Section Pattern.

Variable cwd : path.
Variable os_relpath : path -> path -> exn + text.
Variable fp : path.
Variable p : regex * text.
Variable rel : text.

Hypothesis Hp : In p patterns.
Hypothesis Hrel :
  get_relative_path os_relpath fp (src_dir cwd ++ [p.2]) = Some rel.
Hypothesis Hok : rel_ok rel = true.

Let step (t m : text) : text :=
  seg_replace (tail m) (tail (new_import m rel)) t.

Lemma rewrite_match_eq (content old : text) :
  rewrite_match cwd os_relpath fp p.2 content old
  = str_replace content old (new_import old rel).
Proof.
  unfold rewrite_match. rewrite Hrel.
  destruct (rel_ok_inv _ Hok) as (rel' & E & _). by rewrite E.
Qed.

Lemma new_import_markfree (m : text) :
  In m (language p.1) -> markfree (tail (new_import m rel)) = true.
Proof.
  intros Hm. destruct (alias_shape p m rel Hp Hm) as (m' & -> & Hm' & ->).
  destruct (rel_ok_inv _ Hok) as (rel' & _ & Hfree).
  cbn [tail]. rewrite !markfree_app, Hfree.
  rewrite (markfree_drop 7 m' Hm').
  rewrite <- (take_drop 5 m'), markfree_app in Hm'.
  apply andb_true_iff in Hm' as [H5 _]. by rewrite H5.
Qed.

Lemma step_markfree (t m : text) :
  In m (language p.1) -> markfree t = true -> markfree (step t m) = true.
Proof.
  intros Hm Ht. unfold step, seg_replace.
  destruct (startswith t (tail m)); [|done].
  rewrite markfree_app, new_import_markfree by done.
  by rewrite markfree_drop.
Qed.

Lemma fold_unsegs (ms : list text) (h : text) (l : list text) :
  Forall (fun m => In m (language p.1)) ms ->
  markfree h = true -> Forall (fun t => markfree t = true) l ->
  fold_left (rewrite_match cwd os_relpath fp p.2) ms (unsegs h l)
  = unsegs h (map (fun t => fold_left step ms t) l).
Proof.
  intros Hms Hh. revert l.
  induction Hms as [|m ms Hm Hms IH]; intros l Hl.
  - simpl. by rewrite map_id.
  - cbn [fold_left]. rewrite rewrite_match_eq.
    destruct (alias_shape p m rel Hp Hm) as (m' & Em & Hm' & Enew).
    rewrite Enew. rewrite Em at 1.
    rewrite str_replace_unsegs by done.
    rewrite IH.
    + rewrite map_map. f_equal. apply map_ext. intros t.
      unfold step at 3. by rewrite Enew, Em.
    + apply Forall_map. eapply Forall_impl; [exact Hl|].
      intros t Ht. simpl.
      pose proof (step_markfree t m Hm Ht) as Hs.
      unfold step in Hs. by rewrite Enew, Em in Hs.
Qed.

Lemma startswith_match (t m : text) :
  In m (language p.1) -> startswith t (tail m) = true ->
  match_at p.1 (mark :: t) = Some m.
Proof.
  intros Hm Hs. destruct (alias_shape p m rel Hp Hm) as (m' & -> & _).
  simpl in Hs. apply startswith_spec in Hs as [r ->].
  change (mark :: m' ++ r) with ((mark :: m') ++ r). by apply language_match.
Qed.

Lemma step_none (t m : text) :
  In m (language p.1) -> match_at p.1 (mark :: t) = None -> step t m = t.
Proof.
  intros Hm Hnone. unfold step, seg_replace.
  destruct (startswith t (tail m)) eqn:E; [|done].
  by rewrite (startswith_match _ _ Hm E) in Hnone.
Qed.

Lemma fold_step_none (ms : list text) (t : text) :
  Forall (fun m => In m (language p.1)) ms ->
  match_at p.1 (mark :: t) = None -> fold_left step ms t = t.
Proof.
  induction 1 as [|m ms Hm Hms IH]; [done|]. intros Hnone.
  cbn [fold_left]. rewrite step_none by done. by apply IH.
Qed.

Lemma rewritten_no_match (m x : text) :
  In m (language p.1) ->
  match_at p.1 (mark :: tail (new_import m rel) ++ x) = None.
Proof.
  intros Hm. destruct (rel_ok_inv _ Hok) as (rel' & E & _).
  rewrite E. by apply (alias_no_rematch p p).
Qed.

Lemma fold_step_hit (ms : list text) (t m : text) :
  Forall (fun m => In m (language p.1)) ms ->
  match_at p.1 (mark :: t) = Some m -> In m ms ->
  fold_left step ms t = tail (new_import m rel) ++ drop (length m - 1) t.
Proof.
  induction 1 as [|m1 ms Hm1 Hms IH]; [done|]. intros Hmatch Hin.
  cbn [fold_left].
  destruct (decide (m1 = m)) as [-> | Hne].
  - destruct (match_at_prefix _ _ _ Hmatch) as [Hs _].
    destruct (alias_shape p m rel Hp Hm1) as (m' & Em & _).
    assert (Hst : step t m = tail (new_import m rel) ++ drop (length m - 1) t).
    { unfold step, seg_replace. rewrite Em in Hs |- *.
      simpl in Hs. injection Hs as Hs. cbn [tail].
      rewrite Hs at 1. rewrite startswith_app.
      by replace (length (mark :: m') - 1) with (length m') by (simpl; lia). }
    rewrite Hst. apply fold_step_none; [done|].
    by apply rewritten_no_match.
  - assert (Hst : step t m1 = t).
    { unfold step, seg_replace.
      destruct (startswith t (tail m1)) eqn:E; [|done].
      rewrite (startswith_match _ _ Hm1 E) in Hmatch. congruence. }
    rewrite Hst. apply IH; [done|]. by destruct Hin.
Qed.

Lemma rewrite_pattern_unsegs (h : text) (l : list text) :
  markfree h = true -> Forall (fun t => markfree t = true) l ->
  rewrite_pattern cwd os_relpath fp (unsegs h l) p
  = unsegs h (map (seg_span p.1 rel) l).
Proof.
  intros Hh Hl. unfold rewrite_pattern.
  destruct (pattern_regex p Hp) as (re' & Ere & Hrej).
  assert (Hfind : finditer p.1 (unsegs h l) = flat_map (seg_match p.1) l).
  { rewrite Ere. apply finditer_unsegs; try done.
    - intros c s Hc. by apply marked_regex_mark.
    - intros t u _ Hu. by apply marked_regex_local. }
  rewrite Hfind.
  assert (Hms : Forall (fun m => In m (language p.1)) (flat_map (seg_match p.1) l)).
  { apply Forall_forall. intros m [t [_ Hm]]%list_elem_of_In%in_flat_map.
    unfold seg_match in Hm.
    destruct (match_at p.1 (mark :: t)) as [m0|] eqn:E; [|done].
    destruct Hm as [<- | []]. by eapply match_at_language. }
  rewrite fold_unsegs by done. f_equal.
  apply map_ext_in. intros t Ht. unfold seg_span.
  destruct (match_at p.1 (mark :: t)) as [m|] eqn:E.
  - apply fold_step_hit; try done.
    apply in_flat_map. exists t. split; [done|].
    unfold seg_match. rewrite E. by left.
  - by apply fold_step_none.
Qed.

Lemma rewrite_spans_from_subst (s : text) (k : nat) :
  rewrite_spans_from cwd os_relpath fp p s k
  = subst_from (span_rule cwd os_relpath fp p) s k.
Proof.
  revert k; induction s as [|c s IH]; intros k; [done|].
  cbn [rewrite_spans_from subst_from]. destruct k as [|k]; [|apply IH].
  unfold span_rule at 1.
  destruct (match_at p.1 (c :: s)) as [[|c' m]|]; by rewrite IH.
Qed.

Lemma span_import_eq (m : text) :
  span_import cwd os_relpath fp p.2 m = new_import m rel.
Proof.
  unfold span_import. rewrite Hrel.
  destruct (rel_ok_inv _ Hok) as (rel' & E & _). by rewrite E.
Qed.

Lemma rewrite_spans_unsegs (h : text) (l : list text) :
  markfree h = true -> Forall (fun t => markfree t = true) l ->
  rewrite_spans cwd os_relpath fp p (unsegs h l)
  = unsegs h (map (seg_span p.1 rel) l).
Proof.
  intros Hh Hl. unfold rewrite_spans. rewrite rewrite_spans_from_subst.
  destruct (pattern_regex p Hp) as (re' & Ere & Hrej).
  rewrite subst_unsegs; try done.
  - unfold unsegs. f_equal. clear Hl.
    induction l as [|t l IH]; [done|]. cbn [flat_map map]. rewrite IH.
    f_equal. unfold seg_subst, span_rule, seg_span.
    destruct (match_at p.1 (mark :: t)) as [m|] eqn:E; [|done].
    pose proof (match_at_language _ _ _ E) as Hm.
    destruct (alias_shape p m rel Hp Hm) as (m' & Em & _ & Enew).
    rewrite Em. rewrite <- Em. rewrite span_import_eq, Enew. by rewrite Em.
  - intros c s Hc. unfold span_rule. rewrite Ere.
    by rewrite marked_regex_mark.
  - intros t u _ Hu. unfold span_rule. rewrite Ere.
    by rewrite marked_regex_local.
  - intros t out n _. unfold span_rule.
    destruct (match_at p.1 (mark :: t)) as [[|c m]|] eqn:E; try done.
    intros [= <- <-]. apply match_at_prefix in E as [E _].
    apply (f_equal length) in E. rewrite length_app in E. simpl in *. lia.
Qed.

(** For one pattern, replacing every occurrence of each matched text in the
    whole content is replacing each match where it stands. *)
Lemma rewrite_pattern_spans (s : text) :
  rewrite_pattern cwd os_relpath fp s p = rewrite_spans cwd os_relpath fp p s.
Proof.
  rewrite <- (unsegs_segs s). destruct (segs_markfree s) as [Hh Hl].
  by rewrite rewrite_pattern_unsegs, rewrite_spans_unsegs.
Qed.


End Pattern.

(** ** Relative paths of the files below [src] *)

Lemma norm_step_plain (acc : path) (c : text) :
  plain c = true -> norm_step acc c = acc ++ [c].
Proof.
  unfold plain, norm_step. intros Hc.
  apply negb_true_iff, bool_decide_eq_false in Hc.
  destruct (decide (c = [] \/ c = lit ".")); [tauto|].
  destruct (decide (c = lit "..")); [tauto | done].
Qed.

Lemma fold_norm_plain (l acc : path) :
  forallb plain l = true -> fold_left norm_step l acc = acc ++ l.
Proof.
  revert acc; induction l as [|c l IH]; intros acc; simpl.
  - by rewrite app_nil_r.
  - intros [Hc Hl]%andb_true_iff. rewrite norm_step_plain by done.
    rewrite IH by done. by rewrite <- app_assoc.
Qed.

Lemma normpath_app_plain (a l : path) :
  forallb plain l = true -> normpath (a ++ l) = normpath a ++ l.
Proof.
  intros Hl. unfold normpath. rewrite fold_left_app. by apply fold_norm_plain.
Qed.

Lemma commonprefix_app (a b c : path) :
  commonprefix (a ++ b) (a ++ c) = a ++ commonprefix b c.
Proof.
  induction a as [|x a IH]; [done|]. simpl.
  destruct (decide (x = x)); [by rewrite IH | done].
Qed.

Lemma posix_relpath_src (cwd dirs : path) (name target : text) :
  forallb plain dirs = true -> plain target = true ->
  get_relative_path (posix_relpath cwd) (lit "src" :: dirs ++ [name])
    (src_dir cwd ++ [target])
  = Some (src_rel dirs target).
Proof.
  intros Hd Ht. unfold get_relative_path, posix_relpath, parent, src_dir.
  change (lit "src" :: dirs ++ [name]) with ((lit "src" :: dirs) ++ [name]).
  rewrite removelast_last.
  rewrite <- (app_assoc cwd [lit "src"] [target]).
  rewrite !normpath_app_plain; [| by simpl; rewrite Ht | by simpl; rewrite Hd].
  rewrite commonprefix_app.
  change ([lit "src"] ++ [target]) with (lit "src" :: [target]).
  cbn [commonprefix]. destruct (decide (lit "src" = lit "src")); [|done].
  set (k := length (commonprefix dirs [target])).
  rewrite !length_app. cbn [length]. fold k.
  replace (length (normpath cwd) + S (length dirs) - (length (normpath cwd) + S k))
    with (length dirs - k) by lia.
  rewrite drop_app_ge by lia.
  replace (length (normpath cwd) + S k - length (normpath cwd)) with (S k) by lia.
  done.
Qed.

Lemma src_file_inv (fp : path) :
  src_file fp = true ->
  exists name, fp = lit "src" :: dirs_of fp ++ [name]
    /\ forallb plain (dirs_of fp) = true.
Proof.
  destruct fp as [|root rest]; [done|]. unfold src_file, dirs_of.
  intros [[Hroot Hrest]%andb_true_iff Hplain]%andb_true_iff.
  apply bool_decide_eq_true in Hroot as ->.
  apply negb_true_iff, bool_decide_eq_false in Hrest.
  exists (List.last rest []). split; [|done].
  cbn [tail]. f_equal. by apply app_removelast_last.
Qed.

Lemma get_relative_path_src (cwd fp : path) (target : text) :
  src_file fp = true -> plain target = true ->
  get_relative_path (posix_relpath cwd) fp (src_dir cwd ++ [target])
  = Some (src_rel (dirs_of fp) target).
Proof.
  intros (name & E & Hd)%src_file_inv Ht.
  rewrite E at 1. by apply posix_relpath_src.
Qed.

Lemma join_relchar (comps : path) :
  Forall (fun c => forallb relchar c = true) comps ->
  forallb relchar (join comps) = true.
Proof.
  induction 1 as [|c comps Hc Hcs IH]; [done|].
  destruct comps as [|c' comps]; [done|].
  change (join (c :: c' :: comps)) with (c ++ slash :: join (c' :: comps)).
  rewrite forallb_app, Hc. cbn [forallb]. by rewrite IH.
Qed.

Lemma str_replace_absent (s : text) (b : ascii) (new : text) :
  Forall (fun c => c <> b) s -> str_replace s [b] new = s.
Proof.
  induction 1 as [|c s Hc Hs IH]; [done|].
  rewrite str_replace_miss; [by rewrite IH | done |].
  by apply startswith_head.
Qed.

Lemma target_props (p : regex * text) :
  In p patterns -> plain p.2 = true /\ forallb relchar p.2 = true.
Proof. intros Hp. repeat (destruct Hp as [<- | Hp]); by try done. Qed.

Lemma src_rel_ok (dirs : path) (target : text) :
  forallb relchar target = true -> rel_ok (src_rel dirs target) = true.
Proof.
  intros Ht. unfold src_rel.
  set (k := length (commonprefix dirs [target])).
  set (rel_list := repeat (lit "..") (length dirs - k) ++ drop k [target]).
  set (r := match rel_list with [] => lit "." | _ :: _ => join rel_list end).
  assert (Hr : forallb relchar r = true).
  { assert (Hj : forallb relchar (join rel_list) = true).
    { apply join_relchar, Forall_app. split.
      - apply Forall_forall. by intros c ->%list_elem_of_In%repeat_spec.
      - destruct k as [|[|k]]; simpl; [by constructor | done | done]. }
    unfold r. by destruct rel_list. }
  rewrite str_replace_absent.
  - unfold rel_ok. destruct (startswith r [dot]) eqn:E.
    + by rewrite E, Hr.
    + rewrite forallb_app, Hr. done.
  - apply Forall_forall. intros c Hc%list_elem_of_In.
    rewrite forallb_forall in Hr. specialize (Hr _ Hc).
    by apply relchar_props in Hr as (_ & _ & _ & ?).
Qed.

(** The relative path the script computes for a file below [src] and the
    target of a pattern. *)
Lemma pattern_rel (cwd fp : path) (p : regex * text) :
  src_file fp = true -> In p patterns ->
  exists rel,
    get_relative_path (posix_relpath cwd) fp (src_dir cwd ++ [p.2]) = Some rel
    /\ rel_ok rel = true.
Proof.
  intros Hfp Hp. destruct (target_props p Hp) as [Hplain Hchars].
  exists (src_rel (dirs_of fp) p.2). split.
  - by apply get_relative_path_src.
  - by apply src_rel_ok.
Qed.

(** ** The whole content *)

Section Content.

Variable cwd : path.
Variable os_relpath : path -> path -> exn + text.
Variable fp : path.

Hypothesis Hrels : forall p, In p patterns ->
  exists rel,
    get_relative_path os_relpath fp (src_dir cwd ++ [p.2]) = Some rel
    /\ rel_ok rel = true.

Let seg (t : text) (p : regex * text) : text := seg_pattern cwd os_relpath fp t p.
Let G (t : text) : text := fold_left seg patterns t.

Lemma rewrite_pattern_seg (p : regex * text) (h : text) (l : list text) :
  In p patterns ->
  markfree h = true -> Forall (fun t => markfree t = true) l ->
  rewrite_pattern cwd os_relpath fp (unsegs h l) p
  = unsegs h (map (fun t => seg t p) l).
Proof.
  intros Hp Hh Hl. destruct (Hrels p Hp) as (rel & Hrel & Hok).
  rewrite (rewrite_pattern_unsegs cwd os_relpath fp p rel) by done.
  f_equal. apply map_ext. intros t. unfold seg, seg_pattern. by rewrite Hrel.
Qed.

Lemma seg_markfree (t : text) (p : regex * text) :
  In p patterns -> markfree t = true -> markfree (seg t p) = true.
Proof.
  intros Hp Ht. destruct (Hrels p Hp) as (rel & Hrel & Hok).
  unfold seg, seg_pattern, seg_span. rewrite Hrel.
  destruct (match_at p.1 (mark :: t)) as [m|] eqn:E; [|done].
  rewrite markfree_app.
  rewrite (new_import_markfree p rel Hp Hok) by (by eapply match_at_language).
  by rewrite markfree_drop.
Qed.

Lemma fold_patterns_unsegs (ps : list (regex * text)) (h : text) (l : list text) :
  (forall p, In p ps -> In p patterns) ->
  markfree h = true -> Forall (fun t => markfree t = true) l ->
  fold_left (rewrite_pattern cwd os_relpath fp) ps (unsegs h l)
  = unsegs h (map (fun t => fold_left seg ps t) l).
Proof.
  intros Hps Hh. revert l. induction ps as [|p ps IH]; intros l Hl.
  - simpl. by rewrite map_id.
  - cbn [fold_left]. rewrite rewrite_pattern_seg; [|apply Hps; by left|done..].
    rewrite IH.
    + by rewrite map_map.
    + intros q Hq. apply Hps. by right.
    + apply Forall_map. eapply Forall_impl; [exact Hl|].
      intros t Ht. apply seg_markfree; [apply Hps; by left | done].
Qed.

Lemma rewrite_content_unsegs (h : text) (l : list text) :
  markfree h = true -> Forall (fun t => markfree t = true) l ->
  rewrite_content cwd os_relpath fp (unsegs h l) = unsegs h (map G l).
Proof. intros Hh Hl. unfold rewrite_content. by apply fold_patterns_unsegs. Qed.

Lemma G_markfree (t : text) : markfree t = true -> markfree (G t) = true.
Proof.
  unfold G. assert (Hps : forall p, In p patterns -> In p patterns) by done.
  revert Hps t. generalize patterns at 1 3.
  induction l as [|p ps IH]; intros Hps t Ht; [done|].
  cbn [fold_left]. apply IH; [intros q Hq; apply Hps; by right|].
  apply seg_markfree; [apply Hps; by left | done].
Qed.

Lemma seg_cases (t : text) (p : regex * text) :
  In p patterns ->
  (seg t p = t /\ match_at p.1 (mark :: t) = None) \/ clean (seg t p).
Proof.
  intros Hp. destruct (Hrels p Hp) as (rel & Hrel & Hok).
  unfold seg, seg_pattern, seg_span. rewrite Hrel.
  destruct (match_at p.1 (mark :: t)) as [m|] eqn:E; [right | by left].
  destruct (rel_ok_inv _ Hok) as (rel' & -> & _).
  intros q Hq. apply (alias_no_rematch p q); [done..|].
  by eapply match_at_language.
Qed.

Lemma seg_clean (t : text) (p : regex * text) :
  In p patterns -> clean t -> seg t p = t.
Proof.
  intros Hp Hc. unfold seg, seg_pattern, seg_span.
  destruct (get_relative_path _ _ _); [|done]. by rewrite (Hc p Hp).
Qed.

Lemma fold_clean (ps : list (regex * text)) (t : text) :
  (forall p, In p ps -> In p patterns) -> clean t -> fold_left seg ps t = t.
Proof.
  intros Hps Hc. induction ps as [|p ps IH]; [done|].
  cbn [fold_left]. rewrite seg_clean; [|apply Hps; by left|done].
  apply IH. intros q Hq. apply Hps. by right.
Qed.

Lemma fold_cases (ps : list (regex * text)) (t : text) :
  (forall p, In p ps -> In p patterns) ->
  (fold_left seg ps t = t /\ forall p, In p ps -> match_at p.1 (mark :: t) = None)
  \/ clean (fold_left seg ps t).
Proof.
  revert t. induction ps as [|p ps IH]; intros t Hps; [by left|].
  cbn [fold_left].
  assert (Hps' : forall q, In q ps -> In q patterns)
    by (intros q Hq; apply Hps; by right).
  destruct (seg_cases t p) as [[-> Hnone] | Hc]; [apply Hps; by left | |].
  - destruct (IH t Hps') as [[Hfold Hall] | Hc]; [left | by right].
    split; [done|]. intros q [<- | Hq]; [done | by apply Hall].
  - right. by rewrite fold_clean.
Qed.

Lemma G_clean (t : text) : clean (G t).
Proof.
  destruct (fold_cases patterns t) as [[E Hall] | Hc]; [done | | done].
  unfold G. by rewrite E.
Qed.

Lemma G_idem (t : text) : G (G t) = G t.
Proof. apply fold_clean; [done | apply G_clean]. Qed.

(** Rewriting a rewritten content changes nothing. *)
Lemma rewrite_content_idem (s : text) :
  rewrite_content cwd os_relpath fp (rewrite_content cwd os_relpath fp s)
  = rewrite_content cwd os_relpath fp s.
Proof.
  rewrite <- (unsegs_segs s). destruct (segs_markfree s) as [Hh Hl].
  rewrite !rewrite_content_unsegs; try done.
  - f_equal. rewrite map_map. apply map_ext. intros t. apply G_idem.
  - apply Forall_map. eapply Forall_impl; [exact Hl|]. apply G_markfree.
Qed.

(** No pattern matches in a rewritten content. *)
Lemma rewrite_content_no_match (s : text) (p : regex * text) :
  In p patterns -> finditer p.1 (rewrite_content cwd os_relpath fp s) = [].
Proof.
  intros Hp. rewrite <- (unsegs_segs s). destruct (segs_markfree s) as [Hh Hl].
  rewrite rewrite_content_unsegs by done.
  destruct (pattern_regex p Hp) as (re' & Ere & Hrej).
  assert (Hfind : forall l', Forall (fun t => markfree t = true) l' ->
            finditer p.1 (unsegs (segs s).1 l') = flat_map (seg_match p.1) l').
  { intros l' Hl'. rewrite Ere. apply finditer_unsegs; try done.
    - intros c x Hc. by apply marked_regex_mark.
    - intros t u _ Hu. by apply marked_regex_local. }
  rewrite Hfind.
  - clear Hl Hfind. induction (segs s).2 as [|t l IH]; [done|].
    cbn [map flat_map]. rewrite IH. unfold seg_match.
    by rewrite (G_clean t p Hp).
  - apply Forall_map. eapply Forall_impl; [exact Hl|]. apply G_markfree.
Qed.


End Content.

Section AliasFree.

Variable cwd : path.
Variable os_relpath : path -> path -> exn + text.
Variable fp : path.

Hypothesis Hrels : forall p, In p patterns ->
  exists rel,
    get_relative_path os_relpath fp (src_dir cwd ++ [p.2]) = Some rel
    /\ rel_ok rel = true.

(** None of the eight alias strings occurs in a rewritten content. *)
Lemma rewrite_content_alias_free (s : text) :
  has_alias_import (rewrite_content cwd os_relpath fp s) = false.
Proof.
  rewrite <- (unsegs_segs s). destruct (segs_markfree s) as [Hh Hl].
  rewrite rewrite_content_unsegs by done.
  apply not_true_is_false. intros [m [Hm Hc]]%existsb_exists.
  apply in_flat_map in Hm as [p [Hp Hm]].
  destruct (alias_shape p m [] Hp Hm) as (m' & Em & Hm' & _).
  rewrite Em in Hc. rewrite contains_unsegs in Hc; try done.
  - apply existsb_exists in Hc as [t [Ht Hs]].
    apply in_map_iff in Ht as [t0 [<- Ht0]].
    assert (Hs' : startswith
      (fold_left (fun t p => seg_pattern cwd os_relpath fp t p) patterns t0)
      (tail m) = true) by (by rewrite Em).
    apply (startswith_match p [] Hp _ _ Hm) in Hs'.
    by rewrite (G_clean cwd os_relpath fp Hrels t0 p Hp) in Hs'.
  - apply Forall_map. eapply Forall_impl; [exact Hl|].
    intros t Ht. by apply G_markfree.
Qed.

Lemma unmatched_segment (t : text) (p : regex * text) :
  match_at p.1 (mark :: t) = None -> seg_pattern cwd os_relpath fp t p = t.
Proof.
  intros Hnone. unfold seg_pattern, seg_span.
  destruct (get_relative_path _ _ _); [|done]. by rewrite Hnone.
Qed.

Lemma fold_seg_unmatched (ps : list (regex * text)) (t : text) :
  (forall p, In p ps -> match_at p.1 (mark :: t) = None) ->
  fold_left (fun t p => seg_pattern cwd os_relpath fp t p) ps t = t.
Proof.
  induction ps as [|q ps IH]; [done|]. intros Hall. cbn [fold_left].
  rewrite unmatched_segment by (apply Hall; by left).
  apply IH. intros p Hp. apply Hall. by right.
Qed.

End AliasFree.

(** ** Encoding and newlines *)

Lemma ascii_not_high (a : ascii) (lo hi : N) :
  is_ascii a = true -> (128 <= lo)%N -> byte_in lo hi a = false.
Proof.
  unfold is_ascii, byte_in. intros [_ Ha]%andb_true_iff Hlo.
  apply N.leb_le in Ha. apply andb_false_iff. left. apply N.leb_gt. lia.
Qed.

Lemma ascii_not_continuation (a : ascii) :
  is_ascii a = true -> continuation a = false.
Proof. intros Ha. by apply ascii_not_high. Qed.

Lemma ascii_not_second_3 (a b0 : ascii) :
  is_ascii a = true -> second_of_3 b0 a = false.
Proof.
  intros Ha. unfold second_of_3, continuation.
  repeat case_match; by apply ascii_not_high.
Qed.

Lemma ascii_not_second_4 (a b0 : ascii) :
  is_ascii a = true -> second_of_4 b0 a = false.
Proof.
  intros Ha. unfold second_of_4, continuation.
  repeat case_match; by apply ascii_not_high.
Qed.

Lemma utf8_valid_ascii_cons (a : ascii) (s : text) :
  is_ascii a = true -> utf8_valid (a :: s) = utf8_valid s.
Proof. intros Ha. cbn [utf8_valid]. by rewrite Ha. Qed.

Lemma utf8_valid_app (x y : text) :
  utf8_valid x = true -> utf8_valid y = true -> utf8_valid (x ++ y) = true.
Proof.
  intros Hx Hy. remember (length x) as n eqn:Hn.
  revert x Hn Hx. induction n as [n IH] using lt_wf_ind. intros x Hn Hx.
  destruct x as [|b0 r]; [done|].
  cbn [app utf8_valid] in *.
  destruct (is_ascii b0).
  { eapply IH; [|done..]. simpl in Hn. lia. }
  destruct (byte_in 194 223 b0).
  { destruct r as [|b1 r1]; [done|]. cbn [app].
    apply andb_true_iff in Hx as [-> Hx]. cbn [andb].
    eapply IH; [|done..]. simpl in Hn. lia. }
  destruct (byte_in 224 239 b0).
  { destruct r as [|b1 [|b2 r2]]; [done..|]. cbn [app].
    apply andb_true_iff in Hx as [-> Hx]. cbn [andb].
    eapply IH; [|done..]. simpl in Hn. lia. }
  destruct (byte_in 240 244 b0); [|done].
  destruct r as [|b1 [|b2 [|b3 r3]]]; [done..|]. cbn [app].
  apply andb_true_iff in Hx as [-> Hx]. cbn [andb].
  eapply IH; [|done..]. simpl in Hn. lia.
Qed.

Ltac absurd_andb H :=
  repeat (rewrite andb_false_r in H || rewrite andb_false_l in H).

Lemma utf8_valid_split (x : text) (a : ascii) (y : text) :
  is_ascii a = true -> utf8_valid (x ++ a :: y) = true ->
  utf8_valid x = true /\ utf8_valid y = true.
Proof.
  intros Ha. remember (length x) as n eqn:Hn.
  revert x Hn. induction n as [n IH] using lt_wf_ind. intros x Hn Hx.
  pose proof (ascii_not_continuation a Ha) as Hc.
  destruct x as [|b0 r].
  { by rewrite app_nil_l, utf8_valid_ascii_cons in Hx. }
  pose proof (ascii_not_second_3 a b0 Ha) as H3.
  pose proof (ascii_not_second_4 a b0 Ha) as H4.
  cbn [app utf8_valid] in *.
  destruct (is_ascii b0).
  { eapply IH; [|done..]. simpl in Hn. lia. }
  destruct (byte_in 194 223 b0).
  { destruct r as [|b1 r1]; cbn [app] in Hx; [by rewrite Hc in Hx|].
    apply andb_true_iff in Hx as [-> Hx]. cbn [andb].
    eapply IH; [|done..]. simpl in Hn. lia. }
  destruct (byte_in 224 239 b0).
  { destruct r as [|b1 [|b2 r2]]; cbn [app] in Hx.
    - destruct y as [|y0 y]; [done|]. by rewrite H3 in Hx.
    - rewrite Hc in Hx. by absurd_andb Hx.
    - apply andb_true_iff in Hx as [-> Hx]. cbn [andb].
      eapply IH; [|done..]. simpl in Hn. lia. }
  destruct (byte_in 240 244 b0); [|done].
  destruct r as [|b1 [|b2 [|b3 r3]]]; cbn [app] in Hx.
  - destruct y as [|y0 [|y1 y]]; [done..|]. by rewrite H4 in Hx.
  - destruct y as [|y0 y]; [done|]. rewrite Hc in Hx.
    by absurd_andb Hx.
  - rewrite Hc in Hx. by absurd_andb Hx.
  - apply andb_true_iff in Hx as [-> Hx]. cbn [andb].
    eapply IH; [|done..]. simpl in Hn. lia.
Qed.

Lemma utf8_valid_ascii (s : text) :
  forallb is_ascii s = true -> utf8_valid s = true.
Proof.
  induction s as [|a s IH]; [done|]. simpl forallb.
  intros [Ha Hs]%andb_true_iff. rewrite utf8_valid_ascii_cons by done. auto.
Qed.

Lemma utf8_valid_strip (o y : text) :
  forallb is_ascii o = true -> utf8_valid (o ++ y) = true -> utf8_valid y = true.
Proof.
  induction o as [|a o IH]; [done|]. simpl forallb.
  intros [Ha Ho]%andb_true_iff. cbn [app].
  rewrite utf8_valid_ascii_cons by done. auto.
Qed.

Lemma str_replace_valid (old new : text) :
  old <> [] -> forallb is_ascii old = true -> forallb is_ascii new = true ->
  forall s x, utf8_valid (x ++ s) = true ->
    utf8_valid (x ++ str_replace s old new) = true.
Proof.
  intros Hne Hold Hnew s. remember (length s) as n eqn:Hn.
  revert s Hn. induction n as [n IH] using lt_wf_ind. intros s Hn x Hx.
  destruct s as [|c s]; [by rewrite str_replace_nil|].
  destruct (startswith (c :: s) old) eqn:E.
  - apply startswith_spec in E as [rest E]. rewrite E in Hx |- *.
    rewrite str_replace_hit by done.
    destruct old as [|a o]; [done|]. simpl in Hold.
    apply andb_true_iff in Hold as [Ha Ho].
    cbn [app] in Hx. apply utf8_valid_split in Hx as [Hx Hrest]; [|done].
    apply utf8_valid_strip in Hrest; [|done].
    apply utf8_valid_app; [done|]. apply utf8_valid_app.
    + by apply utf8_valid_ascii.
    + apply (IH (length rest)) with (x := []); [|done..].
      apply (f_equal length) in E. rewrite length_app in E. simpl in *. lia.
  - rewrite str_replace_miss by done.
    change (x ++ c :: ?t) with (x ++ [c] ++ t) in Hx |- *.
    rewrite app_assoc in Hx |- *.
    eapply IH; [|done..]. simpl in Hn. lia.
Qed.

Lemma universal_newlines_valid (s x : text) :
  utf8_valid (x ++ s) = true -> utf8_valid (x ++ universal_newlines s) = true.
Proof.
  remember (length s) as n eqn:Hn.
  revert s Hn x. induction n as [n IH] using lt_wf_ind. intros s Hn x Hx.
  destruct s as [|c s]; [done|]. cbn [universal_newlines].
  destruct (Ascii.eqb c CR) eqn:Ec.
  - apply Ascii.eqb_eq in Ec. subst c.
    apply utf8_valid_split in Hx as [Hx Hs]; [|done].
    apply utf8_valid_app; [done|]. rewrite utf8_valid_ascii_cons by done.
    destruct s as [|c' s']; [done|].
    destruct (Ascii.eqb c' LF) eqn:El.
    + apply Ascii.eqb_eq in El. subst c'.
      rewrite utf8_valid_ascii_cons in Hs by done.
      apply (IH (length s') ltac:(simpl in Hn; lia) s' eq_refl [] Hs).
    + apply (IH (length (c' :: s')) ltac:(simpl in Hn |- *; lia)
               (c' :: s') eq_refl [] Hs).
  - change (x ++ c :: ?t) with (x ++ [c] ++ t) in Hx |- *.
    rewrite app_assoc in Hx |- *.
    eapply IH; [|done..]. simpl in Hn. lia.
Qed.

Lemma replace_from_forallb (P : ascii -> bool) (old new s : text) (k : nat) :
  forallb P s = true -> forallb P new = true ->
  forallb P (replace_from old new s k) = true.
Proof.
  intros Hs Hnew. revert k. induction s as [|c s IH]; intros k; [done|].
  simpl in Hs. apply andb_true_iff in Hs as [Hc Hs].
  cbn [replace_from]. destruct k as [|k]; [|by apply IH].
  destruct (startswith (c :: s) old).
  - rewrite forallb_app, Hnew. by apply IH.
  - cbn [forallb]. rewrite Hc. by apply IH.
Qed.

Lemma str_replace_forallb (P : ascii -> bool) (s old new : text) :
  old <> [] -> forallb P s = true -> forallb P new = true ->
  forallb P (str_replace s old new) = true.
Proof.
  destruct old as [|a old]; [done | intros _]. apply replace_from_forallb.
Qed.

Lemma forallb_take (P : ascii -> bool) (n : nat) (s : text) :
  forallb P s = true -> forallb P (take n s) = true.
Proof.
  intros Hs. rewrite <- (take_drop n s), forallb_app in Hs.
  by apply andb_true_iff in Hs as [? _].
Qed.

Lemma forallb_drop (P : ascii -> bool) (n : nat) (s : text) :
  forallb P s = true -> forallb P (drop n s) = true.
Proof.
  intros Hs. rewrite <- (take_drop n s), forallb_app in Hs.
  by apply andb_true_iff in Hs as [_ ?].
Qed.

Lemma alias_good (p : regex * text) (m : text) :
  In p patterns -> In m (language p.1) -> forallb goodchar m = true.
Proof.
  intros Hp Hm.
  repeat (destruct Hp as [<- | Hp]); try done;
    repeat (destruct Hm as [<- | Hm]); by try done.
Qed.

Lemma rel_ok_good (rel : text) : rel_ok rel = true -> forallb goodchar rel = true.
Proof.
  unfold rel_ok. intros [_ Hall]%andb_true_iff.
  apply forallb_forall. intros c Hc.
  rewrite forallb_forall in Hall. specialize (Hall _ Hc).
  apply relchar_props in Hall as (_ & Ha & Hcr & _).
  unfold goodchar. rewrite Ha. cbn [andb].
  destruct (Ascii.eqb c CR) eqn:E; [|done]. by apply Ascii.eqb_eq in E.
Qed.

Lemma new_import_good (p : regex * text) (m rel : text) :
  In p patterns -> In m (language p.1) -> rel_ok rel = true ->
  forallb goodchar (new_import m rel) = true.
Proof.
  intros Hp Hm Hok. pose proof (alias_good p m Hp Hm) as Hgood.
  destruct (alias_shape p m rel Hp Hm) as (m' & -> & _ & ->).
  cbn [forallb] in *. apply andb_true_iff in Hgood as [-> Hgood].
  cbn [andb]. rewrite !forallb_app, (rel_ok_good _ Hok).
  by rewrite forallb_take, forallb_drop.
Qed.

Lemma goodchar_ascii (s : text) :
  forallb goodchar s = true -> forallb is_ascii s = true.
Proof.
  intros Hs. apply forallb_forall. intros c Hc.
  rewrite forallb_forall in Hs. specialize (Hs _ Hc).
  by apply andb_true_iff in Hs as [? _].
Qed.

Lemma finditer_from_language (re : regex) (s : text) (k : nat) (m : text) :
  In m (finditer_from re s k) ->
  In m (language re) /\ contains s m = true.
Proof.
  revert k. induction s as [|c s IH]; intros k; cbn [finditer_from].
  - destruct k; [|done].
    destruct (match_at re []) as [m0|] eqn:E; [|done].
    intros [<- | []]. split; [by eapply match_at_language|].
    apply match_at_prefix in E as [E _]. by destruct m0.
  - destruct k as [|k].
    + destruct (match_at re (c :: s)) as [m0|] eqn:E.
      * intros [<- | Hin].
        -- split; [by eapply match_at_language|].
           apply match_at_prefix in E as [E _]. cbn [contains].
           rewrite E at 1. by rewrite startswith_app.
        -- apply IH in Hin as [? Hc]. split; [done|].
           cbn [contains]. rewrite Hc. apply orb_true_r.
      * intros Hin. apply IH in Hin as [? Hc]. split; [done|].
        cbn [contains]. rewrite Hc. apply orb_true_r.
    + intros Hin. apply IH in Hin as [? Hc]. split; [done|].
      cbn [contains]. rewrite Hc. apply orb_true_r.
Qed.

(** A property of the content that every replacement of an alias keeps is
    kept by the rewriting. *)
Lemma rewrite_content_invariant (cwd : path)
    (os_relpath : path -> path -> exn + text) (fp : path) (Inv : text -> Prop) :
  (forall p m s, In p patterns -> In m (language p.1) -> Inv s ->
     Inv (rewrite_match cwd os_relpath fp p.2 s m)) ->
  forall s, Inv s -> Inv (rewrite_content cwd os_relpath fp s).
Proof.
  intros Hstep. unfold rewrite_content.
  assert (Hps : forall p, In p patterns -> In p patterns) by done.
  revert Hps. generalize patterns at 1 3. intros ps.
  induction ps as [|p ps IH]; intros Hps s Hs; [done|].
  cbn [fold_left]. apply IH; [intros q Hq; apply Hps; by right|].
  unfold rewrite_pattern.
  assert (Hfold : forall ms s', (forall m, In m ms -> In m (language p.1)) ->
            Inv s' -> Inv (fold_left (rewrite_match cwd os_relpath fp p.2) ms s')).
  { induction ms as [|m ms IHm]; intros s' Hms Hs'; [done|].
    cbn [fold_left]. apply IHm; [intros m' Hm'; apply Hms; by right|].
    apply Hstep; [apply Hps; by left | apply Hms; by left | done]. }
  apply Hfold; [|done].
  intros m Hm. by apply finditer_from_language in Hm as [? _].
Qed.

Lemma goodchar_no_cr (s : text) : forallb goodchar s = true -> no_cr s = true.
Proof.
  intros Hs. apply forallb_forall. intros c Hc.
  rewrite forallb_forall in Hs. specialize (Hs _ Hc).
  by apply andb_true_iff in Hs as [_ ?].
Qed.

Lemma universal_newlines_no_cr (s : text) : no_cr (universal_newlines s) = true.
Proof.
  remember (length s) as n eqn:Hn.
  revert s Hn. induction n as [n IH] using lt_wf_ind. intros s Hn.
  destruct s as [|c s]; [done|]. cbn [universal_newlines].
  destruct (Ascii.eqb c CR) eqn:Ec.
  - unfold no_cr. cbn [forallb].
    change (negb (Ascii.eqb LF CR)) with true. cbn [andb].
    destruct s as [|c' s']; [done|].
    destruct (Ascii.eqb c' LF).
    + apply (IH (length s')); [simpl in Hn; lia | done].
    + apply (IH (length (c' :: s'))); [simpl in Hn |- *; lia | done].
  - unfold no_cr. cbn [forallb]. rewrite Ec. cbn [negb andb].
    apply (IH (length s)); [simpl in Hn; lia | done].
Qed.

Lemma universal_newlines_id (s : text) :
  no_cr s = true -> universal_newlines s = s.
Proof.
  induction s as [|c s IH]; [done|]. unfold no_cr. cbn [forallb].
  intros [Hc Hs]%andb_true_iff. cbn [universal_newlines].
  apply negb_true_iff in Hc. rewrite Hc. by rewrite IH.
Qed.

Section Stable.

Variable cwd : path.
Variable os_relpath : path -> path -> exn + text.
Variable fp : path.

Hypothesis Hrels : forall p, In p patterns ->
  exists rel,
    get_relative_path os_relpath fp (src_dir cwd ++ [p.2]) = Some rel
    /\ rel_ok rel = true.

Lemma rewrite_match_stable (p : regex * text) (m s : text) :
  In p patterns -> In m (language p.1) ->
  utf8_valid s = true /\ no_cr s = true ->
  utf8_valid (rewrite_match cwd os_relpath fp p.2 s m) = true
  /\ no_cr (rewrite_match cwd os_relpath fp p.2 s m) = true.
Proof.
  intros Hp Hm [Hv Hcr]. destruct (Hrels p Hp) as (rel & Hrel & Hok).
  rewrite (rewrite_match_eq cwd os_relpath fp p rel Hrel Hok).
  pose proof (new_import_good p m rel Hp Hm Hok) as Hnew.
  pose proof (alias_good p m Hp Hm) as Hold.
  assert (Hne : m <> []).
  { destruct (alias_shape p m rel Hp Hm) as (m' & -> & _). done. }
  split.
  - apply (str_replace_valid m (new_import m rel) Hne) with (x := []);
      [by apply goodchar_ascii.. | done].
  - apply str_replace_forallb; [done | done | by apply goodchar_no_cr].
Qed.

(** The rewriting of a decoded text can be encoded and read back as it is. *)
Lemma rewrite_content_stable (s : text) :
  utf8_valid s = true -> no_cr s = true ->
  utf8_valid (rewrite_content cwd os_relpath fp s) = true
  /\ no_cr (rewrite_content cwd os_relpath fp s) = true.
Proof.
  intros Hv Hcr.
  apply (rewrite_content_invariant cwd os_relpath fp
           (fun s => utf8_valid s = true /\ no_cr s = true)); [|done].
  intros p m s' Hp Hm Hs'. by apply rewrite_match_stable.
Qed.

End Stable.

(** ** [relpath] leads from the start to the target *)

Lemma norm_step_keeps_plain (acc : path) (c : text) :
  forallb plain acc = true -> forallb plain (norm_step acc c) = true.
Proof.
  intros Hacc. unfold norm_step.
  destruct (decide (c = [] \/ c = lit ".")) as [|H1]; [done|].
  destruct (decide (c = lit "..")) as [|H2].
  - destruct acc as [|a acc] using rev_ind; [done|].
    rewrite removelast_last. rewrite forallb_app in Hacc.
    by apply andb_true_iff in Hacc as [? _].
  - rewrite forallb_app, Hacc. cbn [forallb andb]. rewrite andb_true_r.
    unfold plain. apply negb_true_iff, bool_decide_eq_false. tauto.
Qed.

Lemma fold_norm_keeps_plain (l acc : path) :
  forallb plain acc = true -> forallb plain (fold_left norm_step l acc) = true.
Proof.
  revert acc. induction l as [|c l IH]; intros acc Hacc; [done|].
  cbn [fold_left]. by apply IH, norm_step_keeps_plain.
Qed.

Lemma normpath_plain (l : path) : forallb plain (normpath l) = true.
Proof. by apply fold_norm_keeps_plain. Qed.

Lemma commonprefix_drop (a b : path) :
  a = commonprefix a b ++ drop (length (commonprefix a b)) a
  /\ b = commonprefix a b ++ drop (length (commonprefix a b)) b.
Proof.
  revert b. induction a as [|x a IH]; intros b; [by destruct b|].
  destruct b as [|y b]; [done|]. cbn [commonprefix].
  destruct (decide (x = y)) as [<- | Hne]; [|done].
  cbn [length drop app]. destruct (IH b) as [Ha Hb]. split; by f_equal.
Qed.

Lemma pop_all (acc s : path) :
  fold_left norm_step (repeat (lit "..") (length s)) (acc ++ s) = acc.
Proof.
  induction s as [|x s IH] using rev_ind.
  - simpl. by rewrite app_nil_r.
  - rewrite length_app. cbn [length]. rewrite Nat.add_1_r. cbn [repeat fold_left].
    replace (norm_step (acc ++ s ++ [x]) (lit ".."))
      with (removelast (acc ++ s ++ [x])) by done.
    by rewrite app_assoc, removelast_last.
Qed.

Lemma str_replace_removes_char (s : text) (b : ascii) (new : text) :
  ~ In b new -> ~ In b (str_replace s [b] new).
Proof.
  intros Hnew. induction s as [|c s IH].
  { rewrite str_replace_nil by done. by intros []. }
  destruct (decide (c = b)) as [-> | Hne].
  - change (b :: s) with ([b] ++ s). rewrite str_replace_hit by done.
    rewrite in_app_iff. tauto.
  - rewrite str_replace_miss; [|done|by apply startswith_head].
    intros [? | ?]; [done | by apply IH].
Qed.

Lemma forallb_drop_path (n : nat) (l : path) :
  forallb plain l = true -> forallb plain (drop n l) = true.
Proof.
  intros Hl. rewrite <- (take_drop n l), forallb_app in Hl.
  by apply andb_true_iff in Hl as [_ ?].
Qed.

Lemma posix_relpath_leads (cwd to_path start : path) :
  let start_list := normpath (cwd ++ start) in
  let path_list := normpath to_path in
  let i := length (commonprefix start_list path_list) in
  normpath (start_list ++ repeat (lit "..") (length start_list - i) ++ drop i path_list)
  = path_list.
Proof.
  intros start_list path_list i.
  destruct (commonprefix_drop start_list path_list) as [Hs Hp].
  fold i in Hs, Hp.
  pose proof (normpath_plain (cwd ++ start)) as Hplain_s. fold start_list in Hplain_s.
  pose proof (normpath_plain to_path) as Hplain_p. fold path_list in Hplain_p.
  unfold normpath at 1. rewrite !fold_left_app.
  rewrite (fold_norm_plain start_list []), app_nil_l by done.
  assert (Hlen : length start_list - i = length (drop i start_list)).
  { rewrite length_drop. done. }
  rewrite Hlen.
  generalize dependent (drop i start_list). intros s' Hs.
  rewrite Hs, pop_all.
  rewrite fold_norm_plain; [by rewrite <- Hp | by apply forallb_drop_path].
Qed.

(** ** Files without alias imports *)

Lemma no_alias_no_match (s : text) (p : regex * text) :
  has_alias_import s = false -> In p patterns -> finditer p.1 s = [].
Proof.
  intros Hno Hp. destruct (finditer p.1 s) as [|m ms] eqn:E; [done|].
  assert (Hm : In m (finditer_from p.1 s 0)) by (unfold finditer in E; rewrite E; by left).
  apply finditer_from_language in Hm as [Hlang Hc].
  assert (has_alias_import s = true); [|congruence].
  apply existsb_exists. exists m. split; [|done].
  apply in_flat_map. by exists p.
Qed.

Lemma rewrite_content_no_alias (cwd : path)
    (os_relpath : path -> path -> exn + text) (fp : path) (s : text) :
  has_alias_import s = false -> rewrite_content cwd os_relpath fp s = s.
Proof.
  intros Hno. unfold rewrite_content.
  assert (Hps : forall p, In p patterns -> In p patterns) by done.
  revert Hps. generalize patterns at 1 3. intros ps.
  induction ps as [|p ps IH]; intros Hps; [done|].
  cbn [fold_left]. unfold rewrite_pattern at 2.
  rewrite (no_alias_no_match s p Hno) by (apply Hps; by left).
  cbn [fold_left]. apply IH. intros q Hq. apply Hps. by right.
Qed.

(** ** The script on the file tree *)

Lemma fix_imports_readable (cwd : path) (os_relpath : path -> path -> exn + text)
    (w : world) (fp : path) (data : text) :
  fs w !! fp = Some (File data) -> utf8_valid data = true ->
  fix_imports cwd os_relpath w fp
  = (World (<[fp := File (rewrite_content cwd os_relpath fp (universal_newlines data))]> (fs w))
       (opened w ++ [fp] ++ [fp]) (stdout w),
     inr true).
Proof.
  intros Hfs Hv. unfold fix_imports, read_text, write_text, log_open. simpl.
  rewrite Hfs, Hv. by rewrite <- app_assoc.
Qed.

Lemma fix_imports_result (cwd : path) (os_relpath : path -> path -> exn + text)
    (w w' : world) (fp : path) (r : bool) :
  fix_imports cwd os_relpath w fp = (w', inr r) ->
  exists data, fs w !! fp = Some (File data) /\ utf8_valid data = true /\ r = true.
Proof.
  unfold fix_imports, read_text. simpl.
  destruct (fs w !! fp) as [[|data]|]; try done.
  destruct (utf8_valid data) eqn:Hv; [|done].
  intros [= _ <-]. by exists data.
Qed.

Lemma fix_imports_frame (cwd : path) (os_relpath : path -> path -> exn + text)
    (w : world) (fp : path) :
  let w' := (fix_imports cwd os_relpath w fp).1 in
  (forall q, q <> fp -> fs w' !! q = fs w !! q)
  /\ (exists l, opened w' = opened w ++ fp :: l /\ forall q, In q l -> q = fp)
  /\ (forall q, is_Some (fs w' !! q) <-> is_Some (fs w !! q)).
Proof.
  unfold fix_imports, read_text, write_text, log_open. simpl.
  destruct (fs w !! fp) as [[|data]|] eqn:Hfs; simpl;
    [| destruct (utf8_valid data); simpl |].
  - split; [done|]. split; [|done]. by exists [].
  - split; [intros q Hq; by rewrite lookup_insert_ne|]. split.
    + exists [fp]. rewrite <- app_assoc. split; [done|]. by intros q [<- | []].
    + intros q. destruct (decide (q = fp)) as [-> | Hne].
      * rewrite lookup_insert_eq, Hfs. split; by eauto.
      * by rewrite lookup_insert_ne.
  - split; [done|]. split; [|done]. by exists [].
  - split; [done|]. split; [|done]. by exists [].
Qed.

Lemma rglob_spec (tree : gmap path entry) (q : path) :
  In q (rglob tree) <-> selected q = true /\ is_Some (tree !! q).
Proof.
  unfold rglob. rewrite <- list_elem_of_In, merge_sort_Permutation, list_elem_of_In.
  rewrite filter_In, in_map_iff. split.
  - intros [[[q' e] [<- Hin]] Hsel]. split; [done|].
    apply list_elem_of_In, elem_of_map_to_list in Hin. by exists e.
  - intros [Hsel [e He]]. split; [|done]. exists (q, e). split; [done|].
    by apply list_elem_of_In, elem_of_map_to_list.
Qed.

Lemma rglob_NoDup (tree : gmap path entry) : List.NoDup (rglob tree).
Proof.
  unfold rglob. apply NoDup_ListNoDup. rewrite merge_sort_Permutation.
  apply NoDup_ListNoDup, List.NoDup_filter, NoDup_ListNoDup.
  apply NoDup_fst_map_to_list.
Qed.

(** ** The order of the walk *)

Lemma ascii_compare_eq (a b : ascii) : Ascii.compare a b = Eq <-> a = b.
Proof.
  split; [apply Ascii.compare_eq_iff|]. intros ->. apply N.compare_refl.
Qed.

Lemma ascii_compare_opp (a b : ascii) :
  Ascii.compare b a = CompOpp (Ascii.compare a b).
Proof. apply Ascii.compare_antisym. Qed.

Lemma ascii_compare_trans (a b c : ascii) (r : comparison) :
  Ascii.compare a b = r -> Ascii.compare b c = r -> Ascii.compare a c = r.
Proof.
  unfold Ascii.compare. destruct r; intros H1 H2.
  - apply N.compare_eq_iff in H1, H2. apply N.compare_eq_iff. congruence.
  - rewrite N.compare_lt_iff in *. lia.
  - rewrite N.compare_gt_iff in *. lia.
Qed.

Lemma text_compare_eq (s t : text) : text_compare s t = Eq <-> s = t.
Proof. apply list_compare_refl, ascii_compare_eq. Qed.

Lemma text_compare_opp (s t : text) :
  text_compare t s = CompOpp (text_compare s t).
Proof.
  apply list_compare_antisym; [apply ascii_compare_eq | apply ascii_compare_opp].
Qed.

Lemma text_compare_trans (s t u : text) (r : comparison) :
  text_compare s t = r -> text_compare t u = r -> text_compare s u = r.
Proof.
  apply list_compare_trans;
    [apply ascii_compare_eq | apply ascii_compare_trans | apply ascii_compare_opp].
Qed.

Lemma path_compare_eq (p q : path) : path_compare p q = Eq <-> p = q.
Proof. apply list_compare_refl, text_compare_eq. Qed.

Lemma path_compare_opp (p q : path) :
  path_compare q p = CompOpp (path_compare p q).
Proof.
  apply list_compare_antisym; [apply text_compare_eq | apply text_compare_opp].
Qed.

Lemma path_compare_trans (p q r : path) (c : comparison) :
  path_compare p q = c -> path_compare q r = c -> path_compare p r = c.
Proof.
  apply list_compare_trans;
    [apply text_compare_eq | apply text_compare_trans | apply text_compare_opp].
Qed.

Lemma walk_compare_opp (p q : path) :
  walk_compare q p = CompOpp (walk_compare p q).
Proof.
  unfold walk_compare.
  rewrite (path_compare_opp (parent p) (parent q)).
  rewrite (text_compare_opp (List.last p []) (List.last q [])).
  by destruct (path_compare (parent p) (parent q)).
Qed.

Lemma walk_compare_Eq (p q : path) :
  walk_compare p q = Eq ->
  parent p = parent q /\ List.last p [] = List.last q [].
Proof.
  unfold walk_compare.
  destruct (path_compare (parent p) (parent q)) eqn:E; try done.
  apply path_compare_eq in E. intros H%text_compare_eq. done.
Qed.

Lemma walk_compare_Lt (p q r : path) :
  walk_compare p q = Lt -> walk_compare q r = Lt -> walk_compare p r = Lt.
Proof.
  unfold walk_compare.
  destruct (path_compare (parent p) (parent q)) eqn:E1; try done;
    destruct (path_compare (parent q) (parent r)) eqn:E2; try done.
  - apply path_compare_eq in E1, E2. rewrite E1, E2.
    rewrite (proj2 (path_compare_eq (parent r) (parent r)) eq_refl).
    apply text_compare_trans.
  - apply path_compare_eq in E1. rewrite E1, E2. done.
  - apply path_compare_eq in E2. rewrite <- E2, E1. done.
  - by rewrite (path_compare_trans _ _ _ Lt E1 E2).
Qed.

Lemma walk_le_total (p q : path) : walk_le p q \/ walk_le q p.
Proof.
  unfold walk_le, walk_leb. rewrite (walk_compare_opp p q).
  destruct (walk_compare p q); cbn; by eauto.
Qed.

Lemma walk_le_trans (p q r : path) : walk_le p q -> walk_le q r -> walk_le p r.
Proof.
  unfold walk_le, walk_leb.
  destruct (walk_compare p q) eqn:E1; [| |done];
    (destruct (walk_compare q r) eqn:E2; [| |done]); intros _ _.
  - apply walk_compare_Eq in E1 as [H1 H2], E2 as [H3 H4].
    unfold walk_compare. rewrite H1, H3, H2, H4.
    rewrite (proj2 (path_compare_eq (parent r) (parent r)) eq_refl).
    by rewrite (proj2 (text_compare_eq (List.last r []) (List.last r [])) eq_refl).
  - apply walk_compare_Eq in E1 as [H1 H2].
    replace (walk_compare p r) with (walk_compare q r); [by rewrite E2|].
    unfold walk_compare. by rewrite H1, H2.
  - apply walk_compare_Eq in E2 as [H1 H2].
    replace (walk_compare p r) with (walk_compare p q); [by rewrite E1|].
    unfold walk_compare. by rewrite H1, H2.
  - by rewrite (walk_compare_Lt p q r).
Qed.

(** The paths come in the order of the walk. *)
Lemma rglob_sorted (tree : gmap path entry) : StronglySorted walk_le (rglob tree).
Proof.
  unfold rglob.
  apply (@StronglySorted_merge_sort _ walk_le _ walk_le_trans walk_le_total).
Qed.

Lemma walk_le_not_below (dir d : path) (name name' : text) :
  walk_le (dir ++ d ++ [name']) (dir ++ [name]) -> d = [].
Proof.
  unfold walk_le, walk_leb, walk_compare, parent.
  rewrite (app_assoc dir d [name']), !removelast_last.
  rewrite (path_compare_opp dir (dir ++ d)).
  rewrite <- (app_nil_r dir) at 1. unfold path_compare.
  rewrite (@list_compare_app _ text_compare text_compare_eq dir [] d).
  by destruct d.
Qed.

Lemma sorted_walk_order (files : list path) :
  StronglySorted walk_le files -> walk_order files.
Proof.
  intros Hs pre dir name post d name' -> Hin.
  apply (walk_le_not_below dir d name name').
  apply (StronglySorted_app_1_elem_of _ _ _ _ _ Hs).
  - by apply list_elem_of_In.
  - by left.
Qed.

Lemma walk_order_prefix (l1 l2 : list path) :
  walk_order (l1 ++ l2) -> walk_order l1.
Proof.
  intros H pre dir name post d name' -> Hin.
  apply (H pre dir name (post ++ l2) d name'); [|done].
  by rewrite <- app_assoc.
Qed.

(** A path in a directory is yielded before every path in a directory below
    it: the children of [src] come first. *)
Lemma rglob_walk_order (tree : gmap path entry) : walk_order (rglob tree).
Proof. apply sorted_walk_order, rglob_sorted. Qed.

Lemma process_spec (cwd : path) (os_relpath : path -> path -> exn + text)
    (files : list path) (w : world) (n : nat) :
  let r := process cwd os_relpath files w n in
  (forall q, ~ In q files -> fs r.1 !! q = fs w !! q)
  /\ (forall q, In q (opened r.1) -> In q (opened w) \/ In q files)
  /\ (forall q, In q (opened w) -> In q (opened r.1))
  /\ (forall k, r.2 = inr k ->
        k = n + length files /\ forall q, In q files -> In q (opened r.1)).
Proof.
  revert w n. induction files as [|fp rest IH]; intros w n.
  - simpl. split; [done|]. split; [tauto|]. split; [done|].
    intros k [= <-]. split; [lia | done].
  - cbn [process].
    destruct (fix_imports_frame cwd os_relpath w fp) as (Hfs & (l & Hop & Hl) & _).
    destruct (fix_imports cwd os_relpath w fp) as [w1 [e | b]] eqn:E.
    + simpl in *. split; [|split; [|split]].
      * intros q Hq. apply Hfs. intros ->. apply Hq. by left.
      * intros q. rewrite Hop, in_app_iff. intros [? | [<- | Hin]]; [tauto | tauto |].
        apply Hl in Hin as ->. tauto.
      * intros q Hq. rewrite Hop, in_app_iff. tauto.
      * done.
    + destruct (fix_imports_result _ _ _ _ _ _ E) as (data & _ & _ & ->).
      simpl in Hfs, Hop.
      specialize (IH (print w1 (Fixed fp)) (n + 1)).
      destruct (process cwd os_relpath rest (print w1 (Fixed fp)) (n + 1))
        as [w2 res] eqn:E2.
      simpl in IH |- *. destruct IH as (IH1 & IH2 & IH3 & IH4).
      split; [|split; [|split]].
      * intros q Hq. rewrite IH1 by tauto. apply Hfs.
        intros ->. apply Hq. by left.
      * intros q Hq. apply IH2 in Hq as [Hq | Hq]; [|tauto].
        rewrite Hop, in_app_iff in Hq. destruct Hq as [? | [<- | Hin]]; [tauto..|].
        apply Hl in Hin as ->. tauto.
      * intros q Hq. apply IH3. rewrite Hop, in_app_iff. tauto.
      * intros k Hk. apply IH4 in Hk as [-> Hall]. split; [lia|].
        intros q [<- | Hq]; [|by apply Hall].
        apply IH3. rewrite Hop, in_app_iff. right. by left.
Qed.

Lemma rewrite_content_ext (cwd1 cwd2 : path)
    (os1 os2 : path -> path -> exn + text) (fp : path) (s : text) :
  (forall p, In p patterns ->
     get_relative_path os1 fp (src_dir cwd1 ++ [p.2])
     = get_relative_path os2 fp (src_dir cwd2 ++ [p.2])) ->
  rewrite_content cwd1 os1 fp s = rewrite_content cwd2 os2 fp s.
Proof.
  intros Hext. unfold rewrite_content.
  assert (Hps : forall p, In p patterns -> In p patterns) by done.
  revert Hps s. generalize patterns at 1 3 4. intros ps.
  induction ps as [|p ps IH]; intros Hps s; [done|].
  cbn [fold_left].
  assert (Hp : rewrite_pattern cwd1 os1 fp s p = rewrite_pattern cwd2 os2 fp s p).
  { unfold rewrite_pattern. generalize (finditer p.1 s). intros ms. revert s.
    induction ms as [|m ms IHm]; intros s; [done|]. cbn [fold_left].
    unfold rewrite_match at 2 4. rewrite Hext by (apply Hps; by left).
    apply IHm. }
  rewrite Hp. apply IH. intros q Hq. apply Hps. by right.
Qed.

(** The working directory does not matter for a file below [src]. *)
Lemma rewrite_content_any_cwd (cwd fp : path) (s : text) :
  src_file fp = true ->
  rewrite_content cwd (posix_relpath cwd) fp s
  = rewrite_content [] (posix_relpath []) fp s.
Proof.
  intros Hfp. apply rewrite_content_ext. intros p Hp.
  destruct (target_props p Hp) as [Hplain _].
  by rewrite !get_relative_path_src.
Qed.

(** ** The claims of the specification *)

(** C1 (the code departs from it): for a file [src/components/x.ts] that
    imports [from "@/lib/foo"], the content after [fix_imports] must hold
    [from "../lib/foo"].  The script computes [../lib], the path to the
    target directory, and puts it in the place of [@/] only, so the import
    becomes [from "../lib/lib/foo"], whatever the working directory, and
    [from "../lib/foo"] does not occur. *)
Theorem fix_imports_components_lib (cwd : path) :
  let r := fix_imports cwd (posix_relpath cwd) (single x_ts import_lib) x_ts in
  let after := lit "import { a } from " ++ quoted "../lib/lib/foo" ++ lit ";" in
  r.2 = inr true
  /\ fs r.1 !! x_ts = Some (File after)
  /\ contains after (lit "from " ++ quoted "../lib/foo") = false.
Proof.
  intros r after. unfold r.
  rewrite (fix_imports_readable _ _ _ _ import_lib) by done.
  cbn [fst snd fs]. rewrite lookup_insert_eq.
  rewrite rewrite_content_any_cwd by done.
  split; [done|]. split; [|done]. by vm_compute.
Qed.

(** C2 (the code departs from it): a file with an [@/lib/] import and an
    [@/types] import must have both rewritten to the relative path of their
    own target.  Both are rewritten, each with the path of its own target,
    but the target directory is doubled in both: [../lib/lib/foo] and
    [../types/types] instead of [../lib/foo] and [../types]. *)
Theorem fix_imports_two_aliases (cwd : path) :
  let data := import_lib ++ [LF] ++ import_types in
  let r := fix_imports cwd (posix_relpath cwd) (single x_ts data) x_ts in
  let after :=
    lit "import { a } from " ++ quoted "../lib/lib/foo" ++ lit ";" ++ [LF]
    ++ lit "import { T } from " ++ quoted "../types/types" ++ lit ";" in
  r.2 = inr true
  /\ fs r.1 !! x_ts = Some (File after)
  /\ contains after (lit "from " ++ quoted "../lib/foo") = false
  /\ contains after (lit "from " ++ quoted "../types") = false.
Proof.
  intros data r after. unfold r.
  rewrite (fix_imports_readable _ _ _ _ data) by done.
  cbn [fst snd fs]. rewrite lookup_insert_eq.
  rewrite rewrite_content_any_cwd by done.
  split; [done|]. split; [|done]. by vm_compute.
Qed.

(** C3 (the code departs from it): for a file directly in [src] the prefix
    [@/lib/] must become [./lib/].  [get_relative_path] returns [./lib], and
    the script replaces [@/] by [./lib/], so the prefix becomes [./lib/lib/]
    and the import [from "./lib/lib/foo"]. *)
Theorem fix_imports_direct_child (cwd : path) :
  let r := fix_imports cwd (posix_relpath cwd) (single main_ts import_lib) main_ts in
  let after := lit "import { a } from " ++ quoted "./lib/lib/foo" ++ lit ";" in
  get_relative_path (posix_relpath cwd) main_ts (src_dir cwd ++ [lit "lib"])
  = Some (lit "./lib")
  /\ r.2 = inr true
  /\ fs r.1 !! main_ts = Some (File after)
  /\ contains after (lit "from " ++ quoted "./lib/foo") = false.
Proof.
  intros r after. unfold r. split.
  { by rewrite get_relative_path_src. }
  rewrite (fix_imports_readable _ _ _ _ import_lib) by done.
  cbn [fst snd fs]. rewrite lookup_insert_eq.
  rewrite rewrite_content_any_cwd by done.
  split; [done|]. split; [|done]. by vm_compute.
Qed.

(** C4: running [fix_imports] a second time on a file it has rewritten
    changes nothing: the second run reports success and leaves the whole
    tree as the first run left it, because no pattern matches in the content
    the first run has written.  The file is one [rglob] yields, [src/.../name]. *)
Theorem fix_imports_idempotent (cwd fp : path) (w w1 : world) (r : bool) :
  src_file fp = true ->
  fix_imports cwd (posix_relpath cwd) w fp = (w1, inr r) ->
  fix_imports cwd (posix_relpath cwd) w1 fp
  = (World (fs w1) (opened w1 ++ [fp; fp]) (stdout w1), inr true)
  /\ exists content,
       fs w1 !! fp = Some (File content)
       /\ forall p, In p patterns -> finditer p.1 content = [].
Proof.
  intros Hfp E.
  destruct (fix_imports_result _ _ _ _ _ _ E) as (data & Hfs & Hv & ->).
  rewrite (fix_imports_readable _ _ _ _ data Hfs Hv) in E. injection E as <-.
  set (os := posix_relpath cwd).
  set (c1 := rewrite_content cwd os fp (universal_newlines data)).
  pose proof (pattern_rel cwd fp) as Hrels.
  assert (Hrels' : forall p, In p patterns -> exists rel,
            get_relative_path os fp (src_dir cwd ++ [p.2]) = Some rel
            /\ rel_ok rel = true) by (intros p Hp; by apply Hrels).
  destruct (rewrite_content_stable cwd os fp Hrels' (universal_newlines data))
    as [Hv1 Hcr1].
  { by apply (universal_newlines_valid data []). }
  { apply universal_newlines_no_cr. }
  fold c1 in Hv1, Hcr1. cbn [fs opened stdout]. split.
  - rewrite (fix_imports_readable _ _ _ _ c1); [|apply lookup_insert_eq|done].
    cbn [fs opened stdout]. rewrite universal_newlines_id by done.
    unfold c1 at 1. rewrite rewrite_content_idem by done. fold c1.
    by rewrite insert_insert_eq.
  - exists c1. split; [apply lookup_insert_eq|].
    intros p Hp. by apply rewrite_content_no_match.
Qed.

Lemma fix_imports_idempotent_witness :
  fix_imports home (posix_relpath home) rewritten_once x_ts
  = (World (fs rewritten_once) (opened rewritten_once ++ [x_ts; x_ts])
       (stdout rewritten_once), inr true).
Proof.
  apply (fix_imports_idempotent home x_ts (single x_ts import_lib)
           rewritten_once true).
  - reflexivity.
  - vm_compute. reflexivity.
Defined.



(** C6: [get_relative_path] computes the relative path from the directory
    that holds the origin file to the target directory.  The origin file is
    [dir/name], named from the working directory; the absolute path of [dir]
    is [common/up] and that of the target [common/down], where [up] and
    [down] do not start with the same component.  The value returned is one
    [..] for each component of [up], then the components of [down], joined by
    slashes (a single dot when there is no component at all), with every
    backslash turned into a slash and with [./] put before it when it does
    not start with a dot.  Followed from the directory of the origin file,
    these components lead to the target.  The value holds no backslash and
    starts with a dot. *)
Theorem get_relative_path_spec (cwd dir : path) (name : text)
    (to_dir common up down : path) :
  normpath (cwd ++ dir) = common ++ up ->
  normpath to_dir = common ++ down ->
  diverge up down = true ->
  let comps := repeat (lit "..") (length up) ++ down in
  let computed := match comps with [] => lit "." | _ :: _ => join comps end in
  let rel := str_replace computed [backslash] [slash] in
  let r := if startswith rel [dot] then rel else lit "./" ++ rel in
  get_relative_path (posix_relpath cwd) (dir ++ [name]) to_dir = Some r
  /\ normpath ((common ++ up) ++ comps) = common ++ down
  /\ ~ In backslash r
  /\ startswith r [dot] = true.
Proof.
  intros Hstart Hto Hdiv comps computed rel r.
  assert (Hcp : commonprefix (common ++ up) (common ++ down) = common ++ []).
  { rewrite commonprefix_app. f_equal.
    destruct up as [|x up']; [done|]. destruct down as [|y down']; [done|].
    cbn [diverge] in Hdiv. apply negb_true_iff, bool_decide_eq_false in Hdiv.
    cbn [commonprefix]. by destruct (decide (x = y)). }
  split; [|split; [|split]].
  - unfold get_relative_path, parent, posix_relpath.
    rewrite removelast_last, Hstart, Hto, Hcp, app_nil_r.
    rewrite length_app, drop_app_length.
    replace (length common + length up - length common) with (length up) by lia.
    done.
  - pose proof (normpath_plain (cwd ++ dir)) as Hs. rewrite Hstart in Hs.
    pose proof (normpath_plain to_dir) as Ht. rewrite Hto in Ht.
    rewrite forallb_app in Ht. apply andb_true_iff in Ht as [_ Hdown].
    unfold normpath, comps. rewrite (fold_left_app _ (common ++ up)).
    rewrite (fold_norm_plain (common ++ up) []) by done. cbn [app].
    rewrite fold_left_app, pop_all. by apply fold_norm_plain.
  - assert (Hno : ~ In backslash rel).
    { apply str_replace_removes_char. by intros [|[]]. }
    unfold r. destruct (startswith rel [dot]); [done|]. by intros [|[|Hin]].
  - unfold r. by destruct (startswith rel [dot]) eqn:E.
Qed.

Lemma get_relative_path_spec_witness :
  get_relative_path (posix_relpath home) x_ts
    (home ++ [lit "src"; lit "components"; lit ".."; lit "."; lit "lib"])
  = Some (lit "../lib").
Proof.
  destruct (get_relative_path_spec home [lit "src"; lit "components"] (lit "x.ts")
              (home ++ [lit "src"; lit "components"; lit ".."; lit "."; lit "lib"])
              (home ++ [lit "src"]) [lit "components"] [lit "lib"])
    as (H & _).
  - vm_compute. reflexivity.
  - vm_compute. reflexivity.
  - vm_compute. reflexivity.
  - exact H.
Defined.

(** C7: when the computation of the relative path raises,
    [get_relative_path] returns [None], the round of the loop for a match
    leaves the content as it is, and [fix_imports] still returns [True];
    [fix_imports] returns [True] for every file it can read, whether a
    pattern matches or not. *)
Theorem relpath_errors_are_skipped (cwd : path)
    (os_relpath : path -> path -> exn + text) (w : world) (fp : path) (data : text) :
  fs w !! fp = Some (File data) -> utf8_valid data = true ->
  (fix_imports cwd os_relpath w fp).2 = inr true
  /\ ((forall p, In p patterns ->
         exists e, os_relpath (src_dir cwd ++ [p.2]) (parent fp) = inl e) ->
      (forall p, In p patterns ->
         get_relative_path os_relpath fp (src_dir cwd ++ [p.2]) = None)
      /\ (forall p content old, In p patterns ->
            rewrite_match cwd os_relpath fp p.2 content old = content)
      /\ fs (fix_imports cwd os_relpath w fp).1 !! fp
         = Some (File (universal_newlines data))).
Proof.
  intros Hfs Hv. rewrite (fix_imports_readable _ _ _ _ data Hfs Hv).
  split; [done|]. intros Hraise.
  assert (Hnone : forall p, In p patterns ->
            get_relative_path os_relpath fp (src_dir cwd ++ [p.2]) = None).
  { intros p Hp. destruct (Hraise p Hp) as [e He].
    unfold get_relative_path. by rewrite He. }
  assert (Hskip : forall p content old, In p patterns ->
            rewrite_match cwd os_relpath fp p.2 content old = content).
  { intros p content old Hp. unfold rewrite_match. by rewrite Hnone. }
  split; [done|]. split; [done|].
  cbn [fst fs]. rewrite lookup_insert_eq. do 2 f_equal.
  apply (rewrite_content_invariant cwd os_relpath fp
           (fun s => s = universal_newlines data)); [|done].
  intros p m s Hp _ ->. by apply Hskip.
Qed.

Lemma relpath_errors_are_skipped_witness :
  (fix_imports home raising_relpath (single x_ts import_lib) x_ts).2 = inr true
  /\ fs (fix_imports home raising_relpath (single x_ts import_lib) x_ts).1 !! x_ts
     = Some (File import_lib).
Proof.
  destruct (relpath_errors_are_skipped home raising_relpath
              (single x_ts import_lib) x_ts import_lib) as [Hok Hskip].
  - vm_compute. reflexivity.
  - reflexivity.
  - split; [exact Hok|].
    destruct Hskip as (_ & _ & ->); [|reflexivity].
    intros p _. exists ValueError. reflexivity.
Defined.

(** C8, as stated, fails: a file without alias imports whose lines end in
    carriage return and line feed is read with universal newlines and written
    back with bare line feeds. *)
Lemma crlf_file_is_changed :
  has_alias_import crlf_data = false
  /\ (fix_imports home (posix_relpath home) (single main_ts crlf_data) main_ts).2
     = inr true
  /\ fs (fix_imports home (posix_relpath home) (single main_ts crlf_data) main_ts).1
       !! main_ts
     = Some (File (lit "const a = 1;" ++ [LF] ++ lit "const b = 2;" ++ [LF]))
  /\ fs (fix_imports home (posix_relpath home) (single main_ts crlf_data) main_ts).1
       !! main_ts
     <> fs (single main_ts crlf_data) !! main_ts.
Proof.
  split; [reflexivity|]. split; [reflexivity|].
  split; [by vm_compute|]. by vm_compute.
Qed.

(** C8, amended: a file that holds no alias import matching one of the four
    patterns and no carriage return is written back byte for byte as it was,
    so the tree is unchanged; [fix_imports] returns [True] and the loop of
    the script counts the file. *)
Theorem file_without_alias_is_kept (cwd : path)
    (os_relpath : path -> path -> exn + text) (w : world) (fp : path) (data : text) :
  fs w !! fp = Some (File data) -> utf8_valid data = true ->
  no_cr data = true -> has_alias_import data = false ->
  let w' := World (fs w) (opened w ++ [fp; fp]) (stdout w) in
  fix_imports cwd os_relpath w fp = (w', inr true)
  /\ forall rest n,
       process cwd os_relpath (fp :: rest) w n
       = process cwd os_relpath rest (print w' (Fixed fp)) (n + 1).
Proof.
  intros Hfs Hv Hcr Hno w'.
  assert (E : fix_imports cwd os_relpath w fp = (w', inr true)).
  { rewrite (fix_imports_readable _ _ _ _ data Hfs Hv).
    rewrite universal_newlines_id by done.
    rewrite rewrite_content_no_alias by done.
    by rewrite insert_id. }
  split; [done|]. intros rest n. cbn [process]. by rewrite E.
Qed.

Lemma file_without_alias_is_kept_witness :
  fix_imports home (posix_relpath home) (single main_ts plain_data) main_ts
  = (World (fs (single main_ts plain_data)) [main_ts; main_ts] [], inr true).
Proof.
  apply (file_without_alias_is_kept home (posix_relpath home)
           (single main_ts plain_data) main_ts plain_data).
  - vm_compute. reflexivity.
  - reflexivity.
  - reflexivity.
  - reflexivity.
Defined.

(** The total of a run that ends is the number of paths processed. *)
Lemma run_spec (cwd : path) (os_relpath : path -> path -> exn + text) (w : world) :
  let r := run cwd os_relpath w in
  let p := process cwd os_relpath (rglob (fs w)) w 0 in
  fs r.1 = fs p.1 /\ opened r.1 = opened p.1 /\ r.2 = p.2.
Proof.
  unfold run. by destruct (process _ _ _ _ _) as [w' [e|n]].
Qed.


(** C10: within one file every match of a pattern gets the same relative
    path, the one of the file and the target of the pattern, and for each
    pattern the loop of the script, which replaces the text of each match in
    the whole content, yields what replacing each match where it stands, with
    the path computed for it, yields. *)
Theorem whole_content_equals_spans (cwd fp : path) (p : regex * text) (s : text) :
  src_file fp = true -> In p patterns ->
  (exists rel, forall m,
     span_import cwd (posix_relpath cwd) fp p.2 m = new_import m rel)
  /\ rewrite_pattern cwd (posix_relpath cwd) fp s p
     = rewrite_spans cwd (posix_relpath cwd) fp p s.
Proof.
  intros Hfp Hp. destruct (pattern_rel cwd fp p Hfp Hp) as (rel & Hrel & Hok).
  split.
  - exists rel. intros m. by apply span_import_eq.
  - by apply (rewrite_pattern_spans cwd _ fp p rel).
Qed.

Lemma whole_content_equals_spans_witness :
  rewrite_pattern home (posix_relpath home) x_ts mixed_lib lib_pattern
  = rewrite_spans home (posix_relpath home) x_ts lib_pattern mixed_lib.
Proof.
  apply (whole_content_equals_spans home x_ts lib_pattern mixed_lib).
  - reflexivity.
  - right. left. reflexivity.
Defined.

(** ** Further properties of the script *)

Lemma contains_spec (s p : text) :
  contains s p = true <-> exists a b, s = a ++ p ++ b.
Proof.
  induction s as [|c s IH]; cbn [contains].
  - rewrite startswith_spec. split.
    + intros [r Hr]. by exists [], r.
    + intros (a & b & Hab). destruct a; [by exists b | done].
  - rewrite orb_true_iff, startswith_spec, IH. split.
    + intros [[r Hr] | (a & b & ->)]; [by exists [], r | by exists (c :: a), b].
    + intros (a & b & Hab). destruct a as [|c' a].
      * left. by exists b.
      * right. injection Hab as -> ->. by exists a, b.
Qed.

Lemma fix_imports_error (cwd : path) (os_relpath : path -> path -> exn + text)
    (w w1 : world) (fp : path) (e : exn) :
  fix_imports cwd os_relpath w fp = (w1, inl e) ->
  w1 = log_open w fp /\ read_text w fp = inl e.
Proof.
  unfold fix_imports.
  assert (Hread : read_text (log_open w fp) fp = read_text w fp) by done.
  rewrite Hread. destruct (read_text w fp) as [e' | content]; [|done].
  by intros [= <- <-].
Qed.

Lemma fix_imports_stdout (cwd : path) (os_relpath : path -> path -> exn + text)
    (w : world) (fp : path) :
  stdout (fix_imports cwd os_relpath w fp).1 = stdout w.
Proof. unfold fix_imports. by destruct (read_text _ _). Qed.

Lemma fix_imports_kind (cwd : path) (os_relpath : path -> path -> exn + text)
    (w : world) (fp q : path) :
  kind_of (fs (fix_imports cwd os_relpath w fp).1 !! q) = kind_of (fs w !! q).
Proof.
  unfold fix_imports, read_text, write_text, log_open. cbn [fs].
  destruct (fs w !! fp) as [[|data]|] eqn:Hfs; [done | | done].
  destruct (utf8_valid data); [|done]. cbn [fst fs].
  destruct (decide (q = fp)) as [-> | Hne].
  - by rewrite lookup_insert_eq, Hfs.
  - by rewrite lookup_insert_ne.
Qed.

Lemma fix_imports_settled (cwd : path) (os_relpath : path -> path -> exn + text)
    (w : world) (fp : path) :
  settled (fs w) fp ->
  fs (fix_imports cwd os_relpath w fp).1 = fs w
  /\ (fix_imports cwd os_relpath w fp).2 = inr true.
Proof.
  intros (c & Hfs & Hv & Hcr & Hno).
  rewrite (fix_imports_readable _ _ _ _ c Hfs Hv). cbn [fst snd fs].
  rewrite universal_newlines_id by done.
  rewrite rewrite_content_no_alias by done.
  by rewrite insert_id.
Qed.

Lemma fix_imports_keeps_settled (cwd : path)
    (os_relpath : path -> path -> exn + text) (w : world) (fp p : path) :
  settled (fs w) p -> settled (fs (fix_imports cwd os_relpath w fp).1) p.
Proof.
  intros Hp. destruct (decide (p = fp)) as [-> | Hne].
  - by rewrite (proj1 (fix_imports_settled cwd os_relpath w fp Hp)).
  - destruct Hp as (c & Hfs & Hrest). exists c. split; [|done].
    destruct (fix_imports_frame cwd os_relpath w fp) as (Hframe & _).
    by rewrite Hframe.
Qed.

Lemma unique_match (p q : regex * text) (t m m' : text) :
  In p patterns -> In q patterns ->
  match_at p.1 (mark :: t) = Some m -> match_at q.1 (mark :: t) = Some m' ->
  p = q.
Proof.
  intros Hp Hq Hm Hm'.
  pose proof (match_at_language _ _ _ Hm) as Hlang.
  apply match_at_prefix in Hm as [Hs _].
  repeat (destruct Hp as [<- | Hp]); try done;
    repeat (destruct Hlang as [<- | Hlang]); try done;
    cbn [app length drop] in Hs; injection Hs as Hs; rewrite Hs in Hm';
    repeat (destruct Hq as [<- | Hq]); try done.
Qed.

Section Order.

Variable cwd : path.
Variable os_relpath : path -> path -> exn + text.
Variable fp : path.

Hypothesis Hrels : forall p, In p patterns ->
  exists rel,
    get_relative_path os_relpath fp (src_dir cwd ++ [p.2]) = Some rel
    /\ rel_ok rel = true.

Let seg (t : text) (p : regex * text) : text := seg_pattern cwd os_relpath fp t p.

Lemma fold_seg_matched (ps : list (regex * text)) (t : text)
    (p : regex * text) (m : text) :
  (forall q, In q ps -> In q patterns) -> In p ps ->
  match_at p.1 (mark :: t) = Some m ->
  fold_left seg ps t = seg t p.
Proof.
  intros Hps Hin Hm. induction ps as [|q ps IH]; [done|].
  cbn [fold_left].
  assert (Hps' : forall q', In q' ps -> In q' patterns)
    by (intros q' Hq'; apply Hps; by right).
  destruct (match_at q.1 (mark :: t)) as [m'|] eqn:Eq.
  - assert (q = p) as ->
      by (apply (unique_match q p t m' m); [apply Hps; by left | by apply Hps | done..]).
    destruct (seg_cases cwd os_relpath fp Hrels t p) as [[_ Hnone] | Hclean];
      [by apply Hps | congruence |].
    by apply fold_clean.
  - unfold seg at 2. rewrite unmatched_segment by done.
    apply IH; [done|]. destruct Hin as [-> | Hin]; [congruence | done].
Qed.

Lemma matched_or_not (ps : list (regex * text)) (t : text) :
  (exists p m, In p ps /\ match_at p.1 (mark :: t) = Some m)
  \/ (forall p, In p ps -> match_at p.1 (mark :: t) = None).
Proof.
  induction ps as [|q ps [(p & m & Hp & Hm) | Hnone]].
  - by right.
  - left. exists p, m. split; [by right | done].
  - destruct (match_at q.1 (mark :: t)) as [m|] eqn:E.
    + left. exists q, m. split; [by left | done].
    + right. by intros p [<- | Hp]; [|apply Hnone].
Qed.

Lemma fold_seg_permutation (ps : list (regex * text)) (t : text) :
  Permutation ps patterns ->
  fold_left seg ps t = fold_left seg patterns t.
Proof.
  intros Hperm.
  assert (Hps : forall q, In q ps -> In q patterns).
  { intros q Hq. by apply (Permutation_in _ Hperm). }
  destruct (matched_or_not patterns t) as [(p & m & Hp & Hm) | Hnone].
  - rewrite (fold_seg_matched ps t p m); try done.
    + by rewrite (fold_seg_matched patterns t p m).
    + by apply (Permutation_in _ (Permutation_sym Hperm)).
  - unfold seg. rewrite !fold_seg_unmatched; try done.
    intros q Hq. by apply Hnone, Hps.
Qed.

Lemma fold_rewrite_permutation (ps : list (regex * text)) (s : text) :
  Permutation ps patterns ->
  fold_left (rewrite_pattern cwd os_relpath fp) ps s
  = rewrite_content cwd os_relpath fp s.
Proof.
  intros Hperm. unfold rewrite_content.
  rewrite <- (unsegs_segs s). destruct (segs_markfree s) as [Hh Hl].
  rewrite !(fold_patterns_unsegs cwd os_relpath fp Hrels); try done.
  - f_equal. apply map_ext. intros t. by apply fold_seg_permutation.
  - intros q Hq. by apply (Permutation_in _ Hperm).
Qed.

End Order.

Lemma process_kind (cwd : path) (os_relpath : path -> path -> exn + text)
    (files : list path) (w : world) (n : nat) (q : path) :
  kind_of (fs (process cwd os_relpath files w n).1 !! q) = kind_of (fs w !! q).
Proof.
  revert w n. induction files as [|fp rest IH]; intros w n; [done|].
  cbn [process].
  pose proof (fix_imports_kind cwd os_relpath w fp q) as Hk.
  destruct (fix_imports cwd os_relpath w fp) as [w1 [e | [|]]]; cbn [fst] in *.
  - done.
  - by rewrite IH.
  - by rewrite IH.
Qed.

Lemma process_keeps_settled (cwd : path) (os_relpath : path -> path -> exn + text)
    (files : list path) (w : world) (n : nat) (p : path) :
  settled (fs w) p -> settled (fs (process cwd os_relpath files w n).1) p.
Proof.
  revert w n. induction files as [|fp rest IH]; intros w n Hp; [done|].
  cbn [process].
  pose proof (fix_imports_keeps_settled cwd os_relpath w fp p Hp) as Hk.
  destruct (fix_imports cwd os_relpath w fp) as [w1 [e | [|]]]; cbn [fst] in *.
  - done.
  - by apply IH.
  - by apply IH.
Qed.

(** What a run over settled files does: nothing to the tree. *)
Lemma process_settled (cwd : path) (os_relpath : path -> path -> exn + text)
    (files : list path) (w : world) (n : nat) :
  (forall p, In p files -> settled (fs w) p) ->
  fs (process cwd os_relpath files w n).1 = fs w
  /\ (process cwd os_relpath files w n).2 = inr (n + length files).
Proof.
  revert w n. induction files as [|fp rest IH]; intros w n Hall.
  - cbn. split; [done | f_equal; lia].
  - cbn [process].
    destruct (fix_imports_settled cwd os_relpath w fp) as [Hfs Hres];
      [apply Hall; by left|].
    destruct (fix_imports cwd os_relpath w fp) as [w1 res]. cbn [fst snd] in *.
    subst res. destruct (IH (print w1 (Fixed fp)) (n + 1)) as [IH1 IH2].
    { intros p Hp. cbn [print fs]. rewrite Hfs. apply Hall. by right. }
    rewrite IH1, IH2. cbn [print fs length]. split; [done | f_equal; lia].
Qed.

(** The trace of the loop: the paths processed before it ends, the lines
    printed for them, and, when it ends with an exception, the path that
    raised it. *)
Lemma process_trace (cwd : path) (os_relpath : path -> path -> exn + text)
    (files : list path) (w : world) (n : nat) :
  let r := process cwd os_relpath files w n in
  exists done,
    stdout r.1 = stdout w ++ map Fixed done
    /\ (forall q, ~ In q done -> fs r.1 !! q = fs w !! q)
    /\ match r.2 with
       | inr k => done = files /\ k = n + length files
       | inl e =>
           exists bad rest,
             files = done ++ bad :: rest
             /\ read_text r.1 bad = inl e
             /\ forall q, In q (opened r.1) ->
                  In q (opened w) \/ In q done \/ q = bad
       end.
Proof.
  revert w n. induction files as [|fp rest IH]; intros w n.
  - exists []. cbn. rewrite app_nil_r. split; [done|]. split; [done|].
    split; [done | lia].
  - cbn [process].
    pose proof (fix_imports_stdout cwd os_relpath w fp) as Hout.
    destruct (fix_imports_frame cwd os_relpath w fp) as (Hframe & (l & Hop & Hl) & _).
    destruct (fix_imports cwd os_relpath w fp) as [w1 [e | b]] eqn:E;
      cbn [fst snd] in *.
    + exists []. apply fix_imports_error in E as [-> Hread].
      cbn [map]. rewrite app_nil_r. split; [done|]. split; [done|].
      exists fp, rest. split; [done|]. split; [done|].
      intros q. cbn [log_open opened]. rewrite in_app_iff.
      intros [? | [<- | []]]; tauto.
    + destruct (fix_imports_result _ _ _ _ _ _ E) as (data & _ & _ & ->).
      destruct (IH (print w1 (Fixed fp)) (n + 1)) as (done & Hstd & Hfs & Hres).
      exists (fp :: done). split; [|split].
      * rewrite Hstd. cbn [print stdout map]. rewrite Hout.
        by rewrite <- app_assoc.
      * intros q Hq. rewrite Hfs by (intros ?; apply Hq; by right).
        cbn [print fs]. apply Hframe. intros ->. apply Hq. by left.
      * destruct (process cwd os_relpath rest (print w1 (Fixed fp)) (n + 1)).2
          as [e | k].
        -- destruct Hres as (bad & rest' & -> & Hread & Hopened).
           exists bad, rest'. split; [done|]. split; [done|].
           intros q Hq.
           apply Hopened in Hq as [Hq | [Hq | ->]];
             [| right; left; by right | right; by right].
           cbn [print opened] in Hq. rewrite Hop, in_app_iff in Hq.
           destruct Hq as [? | [<- | Hin]]; [tauto | right; left; by left |].
           apply Hl in Hin as ->. right. left. by left.
        -- destruct Hres as [-> ->]. split; [done|]. cbn [length]. lia.
Qed.

Lemma fix_imports_settles (cwd fp : path) (w w1 : world) (r : bool) :
  src_file fp = true ->
  fix_imports cwd (posix_relpath cwd) w fp = (w1, inr r) ->
  settled (fs w1) fp.
Proof.
  intros Hfp E.
  destruct (fix_imports_result _ _ _ _ _ _ E) as (data & Hfs & Hv & ->).
  rewrite (fix_imports_readable _ _ _ _ data Hfs Hv) in E. injection E as <-.
  set (os := posix_relpath cwd).
  assert (Hrels : forall p, In p patterns -> exists rel,
            get_relative_path os fp (src_dir cwd ++ [p.2]) = Some rel
            /\ rel_ok rel = true) by (intros p Hp; by apply pattern_rel).
  destruct (rewrite_content_stable cwd os fp Hrels (universal_newlines data))
    as [Hv1 Hcr1].
  { by apply (universal_newlines_valid data []). }
  { apply universal_newlines_no_cr. }
  exists (rewrite_content cwd os fp (universal_newlines data)).
  cbn [fs]. split; [apply lookup_insert_eq|]. split; [done|]. split; [done|].
  by apply rewrite_content_alias_free.
Qed.

Lemma process_settles (cwd : path) (files : list path) (w : world) (n k : nat) :
  (forall p, In p files -> src_file p = true) ->
  (process cwd (posix_relpath cwd) files w n).2 = inr k ->
  forall p, In p files ->
    settled (fs (process cwd (posix_relpath cwd) files w n).1) p.
Proof.
  revert w n. induction files as [|fp rest IH]; intros w n Hsrc Hres p Hp; [done|].
  cbn [process] in Hres |- *.
  destruct (fix_imports cwd (posix_relpath cwd) w fp) as [w1 [e | b]] eqn:E;
    [done|].
  destruct (fix_imports_result _ _ _ _ _ _ E) as (data & _ & _ & ->).
  pose proof (fix_imports_settles cwd fp w w1 true (Hsrc fp (or_introl eq_refl)) E)
    as Hfp.
  destruct (decide (p = fp)) as [-> | Hne].
  - by apply process_keeps_settled.
  - apply IH; [intros q Hq; apply Hsrc; by right | done |].
    by destruct Hp as [<- | Hp].
Qed.

Lemma join_ups (n : nat) (t : text) :
  join (repeat (lit "..") n ++ [t]) = ups n ++ t.
Proof.
  induction n as [|n IH]; [done|].
  cbn [repeat app]. unfold ups. cbn [repeat concat]. fold (ups n).
  destruct (repeat (lit "..") n ++ [t]) as [|c l] eqn:E.
  - by destruct (repeat (lit "..") n).
  - change (join (lit ".." :: c :: l)) with (lit ".." ++ slash :: join (c :: l)).
    by rewrite IH.
Qed.

Lemma join_dotdots (n : nat) :
  join (repeat (lit "..") (S n)) = lit ".." ++ concat (repeat (lit "/..") n).
Proof.
  induction n as [|n IH]; [done|].
  change (join (repeat (lit "..") (S (S n))))
    with (lit ".." ++ slash :: join (repeat (lit "..") (S n))).
  by rewrite IH.
Qed.

Lemma ups_relchar (n : nat) : forallb relchar (ups n) = true.
Proof.
  induction n as [|n IH]; [done|].
  unfold ups. cbn [repeat concat]. fold (ups n). by rewrite forallb_app, IH.
Qed.

Lemma dotdots_relchar (n : nat) :
  forallb relchar (concat (repeat (lit "/..") n)) = true.
Proof.
  induction n as [|n IH]; [done|].
  cbn [repeat concat]. by rewrite forallb_app, IH.
Qed.

Lemma relchar_replace (r : text) :
  forallb relchar r = true -> str_replace r [backslash] [slash] = r.
Proof.
  intros Hr. apply str_replace_absent, Forall_forall.
  intros c Hc%list_elem_of_In. rewrite forallb_forall in Hr.
  specialize (Hr _ Hc). by apply relchar_props in Hr as (_ & _ & _ & ?).
Qed.

(** X1: for a file below [src], what [fix_imports] does is the same in
    every working directory. *)
Theorem fix_imports_any_cwd (cwd1 cwd2 : path) (w : world) (fp : path) :
  src_file fp = true ->
  fix_imports cwd1 (posix_relpath cwd1) w fp
  = fix_imports cwd2 (posix_relpath cwd2) w fp.
Proof.
  intros Hfp. unfold fix_imports.
  destruct (read_text (log_open w fp) fp) as [e | content]; [done|].
  by rewrite (rewrite_content_any_cwd cwd1), (rewrite_content_any_cwd cwd2).
Qed.

Lemma fix_imports_any_cwd_witness :
  fix_imports home (posix_relpath home) (single x_ts import_lib) x_ts
  = fix_imports [lit "tmp"] (posix_relpath [lit "tmp"]) (single x_ts import_lib) x_ts.
Proof. apply (fix_imports_any_cwd home [lit "tmp"]). reflexivity. Defined.

(** X2: the relative path [get_relative_path] returns for the target of a
    pattern and a file [src/d1/.../dn/name].  When the file is not below the
    target directory it is [./target] for a file directly in [src] and
    [n] times [../] followed by the target otherwise; when [d1] is the target
    directory it is a dot for [n = 1] and [n - 1] times [..] otherwise. *)
Theorem relative_path_by_depth (cwd dirs : path) (name : text) (p : regex * text) :
  In p patterns -> forallb plain dirs = true ->
  get_relative_path (posix_relpath cwd) (lit "src" :: dirs ++ [name])
    (src_dir cwd ++ [p.2])
  = Some (match dirs with
          | [] => lit "./" ++ p.2
          | d :: ds =>
              if decide (d = p.2)
              then match ds with
                   | [] => lit "."
                   | _ :: ds' => lit ".." ++ concat (repeat (lit "/..") (length ds'))
                   end
              else ups (length dirs) ++ p.2
          end).
Proof.
  intros Hp Hplain. destruct (target_props p Hp) as [Ht Hchars].
  rewrite posix_relpath_src by done. f_equal. unfold src_rel.
  destruct dirs as [|d ds].
  - repeat (destruct Hp as [<- | Hp]); by try done.
  - cbn [commonprefix]. destruct (decide (d = p.2)) as [-> | Hne].
    + assert (Hk : commonprefix ds [] = []) by (by destruct ds).
      rewrite Hk.
      replace (length (p.2 :: ds) - length [p.2]) with (length ds)
        by (cbn [length]; lia).
      change (drop (length [p.2]) [p.2]) with (@nil text).
      rewrite app_nil_r.
      destruct ds as [|d' ds']; [done|].
      cbn [length]. rewrite join_dotdots.
      set (r := lit ".." ++ concat (repeat (lit "/..") (length ds'))).
      assert (Hr : forallb relchar r = true)
        by (unfold r; by rewrite forallb_app, dotdots_relchar).
      replace (match repeat (lit "..") (S (length ds')) with
               | [] => lit "."
               | _ :: _ => r
               end) with r by done.
      by rewrite relchar_replace.
    + replace (length (d :: ds) - length (@nil text)) with (S (length ds))
        by (cbn [length]; lia).
      change (drop (length (@nil text)) [p.2]) with [p.2].
      rewrite join_ups. cbn [length].
      set (n := length ds).
      assert (Hr : forallb relchar (ups (S n) ++ p.2) = true)
        by (by rewrite forallb_app, ups_relchar).
      replace (match repeat (lit "..") (S n) ++ [p.2] with
               | [] => lit "."
               | _ :: _ => ups (S n) ++ p.2
               end) with (ups (S n) ++ p.2) by done.
      by rewrite relchar_replace.
Qed.

Lemma relative_path_by_depth_witness :
  get_relative_path (posix_relpath home)
    [lit "src"; lit "components"; lit "ui"; lit "button.tsx"]
    (src_dir home ++ [lit "lib"])
  = Some (lit "../../lib").
Proof.
  apply (relative_path_by_depth home [lit "components"; lit "ui"]
           (lit "button.tsx") lib_pattern).
  - right. left. reflexivity.
  - reflexivity.
Defined.

(** X3: when [fix_imports] raises, it has written nothing: the tree and the
    output are as before and the path was opened once, for reading.  The
    exception tells why the file could not be read: it does not exist, it is
    a directory, or it is not valid UTF-8. *)
Theorem fix_imports_failure (cwd : path) (os_relpath : path -> path -> exn + text)
    (w : world) (fp : path) (e : exn) :
  (fix_imports cwd os_relpath w fp).2 = inl e ->
  fs (fix_imports cwd os_relpath w fp).1 = fs w
  /\ stdout (fix_imports cwd os_relpath w fp).1 = stdout w
  /\ opened (fix_imports cwd os_relpath w fp).1 = opened w ++ [fp]
  /\ ((e = FileNotFoundError /\ fs w !! fp = None)
      \/ (e = IsADirectoryError /\ fs w !! fp = Some Dir)
      \/ (e = UnicodeDecodeError
          /\ exists data, fs w !! fp = Some (File data) /\ utf8_valid data = false)).
Proof.
  destruct (fix_imports cwd os_relpath w fp) as [w1 res] eqn:E. cbn [fst snd].
  intros ->. apply fix_imports_error in E as [-> Hread].
  split; [done|]. split; [done|]. split; [done|].
  unfold read_text in Hread.
  destruct (fs w !! fp) as [[|data]|].
  - injection Hread as <-. right. by left.
  - destruct (utf8_valid data) eqn:Hv; [done|].
    injection Hread as <-. right. right. split; [done|]. by exists data.
  - injection Hread as <-. by left.
Qed.

Lemma fix_imports_failure_witness :
  fs (fix_imports home (posix_relpath home) with_directory [lit "src"; lit "pkg.ts"]).1
  = fs with_directory.
Proof.
  apply (fix_imports_failure home (posix_relpath home) with_directory
           [lit "src"; lit "pkg.ts"] IsADirectoryError).
  vm_compute. reflexivity.
Defined.

(** X4: what [fix_imports] has written for a file below [src] is read back
    as it is: the content is valid UTF-8 and no newline of it is translated. *)
Theorem written_text_reads_back (cwd fp : path) (w w1 : world) (r : bool) :
  src_file fp = true ->
  fix_imports cwd (posix_relpath cwd) w fp = (w1, inr r) ->
  exists content,
    fs w1 !! fp = Some (File content) /\ read_text w1 fp = inr content.
Proof.
  intros Hfp E.
  destruct (fix_imports_settles cwd fp w w1 r Hfp E) as (c & Hfs & Hv & Hcr & _).
  exists c. split; [done|]. unfold read_text. rewrite Hfs, Hv.
  by rewrite universal_newlines_id.
Qed.

Lemma written_text_reads_back_witness :
  exists content,
    fs rewritten_once !! x_ts = Some (File content)
    /\ read_text rewritten_once x_ts = inr content.
Proof.
  apply (written_text_reads_back home x_ts (single x_ts import_lib)
           rewritten_once true).
  - reflexivity.
  - vm_compute. reflexivity.
Defined.

Lemma run_unfold (cwd : path) (os_relpath : path -> path -> exn + text) (w : world) :
  let p := process cwd os_relpath (rglob (fs w)) w 0 in
  run cwd os_relpath w
  = match p.2 with
    | inr n => (print p.1 (Total n), inr n)
    | inl e => (p.1, inl e)
    end.
Proof. unfold run. by destruct (process _ _ _ _ _) as [w' [e|n]]. Qed.

(** X5: a run that ends without an exception has printed one line [Fixed]
    for each entry below [src] whose name matches, each entry once, a path
    in a directory before every path in a directory below it, and then the
    total, which is the number of these entries.  Nothing is said of the
    order among the entries of one directory, which the platform chooses. *)
Theorem run_output (cwd : path) (os_relpath : path -> path -> exn + text)
    (w : world) (n : nat) :
  (run cwd os_relpath w).2 = inr n ->
  exists files,
    stdout (run cwd os_relpath w).1 = stdout w ++ map Fixed files ++ [Total n]
    /\ n = length files
    /\ List.NoDup files
    /\ (forall q, In q files <-> selected q = true /\ is_Some (fs w !! q))
    /\ walk_order files.
Proof.
  rewrite run_unfold. cbn zeta.
  destruct (process_trace cwd os_relpath (rglob (fs w)) w 0)
    as (done & Hstd & _ & Hres).
  destruct (process cwd os_relpath (rglob (fs w)) w 0).2 as [e | k]; [done|].
  cbn [fst snd]. intros [= <-]. destruct Hres as [-> ->].
  exists (rglob (fs w)). cbn [print stdout]. rewrite Hstd.
  split; [by rewrite <- app_assoc|]. split; [done|].
  split; [apply rglob_NoDup|]. split; [apply rglob_spec | apply rglob_walk_order].
Qed.

Lemma run_output_witness :
  stdout (run home (posix_relpath home) (single x_ts import_lib)).1
  = [Fixed x_ts; Total 1].
Proof.
  destruct (run_output home (posix_relpath home) (single x_ts import_lib) 1)
    as (files & -> & Hlen & _ & Hin & _).
  - vm_compute. reflexivity.
  - destruct files as [|q [|q' files]]; try discriminate Hlen.
    destruct (proj1 (Hin q) (or_introl eq_refl)) as [_ [e He]].
    cbn [single fs] in He. apply lookup_singleton_Some in He as [<- _].
    reflexivity.
Defined.

(** X6: a run that ends with an exception has stopped at an entry below
    [src] whose name matches and which cannot be read: the exception is the
    one reading this entry raises in the tree at the start.  One line [Fixed]
    has been printed for each entry met before it and no total; these
    entries match too, are met once each, and none of them lies in a
    directory below the directory of the entry that cannot be read.  Every
    other path holds what it held, and no other path has been opened. *)
Theorem run_abort (cwd : path) (os_relpath : path -> path -> exn + text)
    (w : world) (e : exn) :
  (run cwd os_relpath w).2 = inl e ->
  exists done bad,
    stdout (run cwd os_relpath w).1 = stdout w ++ map Fixed done
    /\ read_text w bad = inl e
    /\ List.NoDup (done ++ [bad])
    /\ (forall q, In q (done ++ [bad]) ->
          selected q = true /\ is_Some (fs w !! q))
    /\ walk_order (done ++ [bad])
    /\ (forall q, ~ In q done -> fs (run cwd os_relpath w).1 !! q = fs w !! q)
    /\ (forall q, In q (opened (run cwd os_relpath w).1) ->
          In q (opened w) \/ In q (done ++ [bad])).
Proof.
  rewrite run_unfold. cbn zeta.
  destruct (process_trace cwd os_relpath (rglob (fs w)) w 0)
    as (done & Hstd & Hfs & Hres).
  destruct (process cwd os_relpath (rglob (fs w)) w 0) as [w' [e' | k]];
    cbn [fst snd] in *; [|done].
  intros [= ->]. destruct Hres as (bad & rest & Hsplit & Hread & Hopened).
  assert (Hsplit' : rglob (fs w) = (done ++ [bad]) ++ rest)
    by (by rewrite <- app_assoc).
  pose proof (rglob_NoDup (fs w)) as Hnd. rewrite Hsplit' in Hnd.
  apply NoDup_ListNoDup, NoDup_app in Hnd as (Hnd & _ & _).
  exists done, bad. split; [done|]. split; [|split; [|split; [|split; [|split]]]].
  - unfold read_text in *. rewrite <- Hfs; [done|].
    apply NoDup_app in Hnd as (_ & Hdisj & _).
    intros Hin%list_elem_of_In. apply (Hdisj bad Hin). by left.
  - by apply NoDup_ListNoDup.
  - intros q Hq. apply rglob_spec. rewrite Hsplit'. apply in_app_iff. by left.
  - apply (walk_order_prefix _ rest). rewrite <- Hsplit'. apply rglob_walk_order.
  - done.
  - intros q Hin. apply Hopened in Hin as [? | [? | ->]]; [by left | |].
    + right. apply in_app_iff. by left.
    + right. apply in_app_iff. right. by left.
Qed.

Lemma run_abort_witness :
  stdout (run home (posix_relpath home) with_directory).1 = []
  /\ forall q, fs (run home (posix_relpath home) with_directory).1 !! q
              = fs with_directory !! q.
Proof.
  destruct (run_abort home (posix_relpath home) with_directory IsADirectoryError)
    as (done & bad & Hstd & Hread & Hnd & Hsel & Hord & Hfs & _).
  - vm_compute. reflexivity.
  - assert (Hkeys : forall q, In q (done ++ [bad]) ->
              q = [lit "src"; lit "pkg.ts"] \/ q = x_ts).
    { intros q Hq. destruct (Hsel q Hq) as [_ [e He]].
      cbn [with_directory fs] in He.
      apply lookup_insert_Some in He as [[<- _] | [_ He]]; [by left|].
      apply lookup_singleton_Some in He as [<- _]. by right. }
    assert (Hbad : bad = [lit "src"; lit "pkg.ts"]).
    { destruct (Hkeys bad) as [-> | ->]; [|done|].
      - apply in_app_iff. right. by left.
      - vm_compute in Hread. discriminate Hread. }
    subst bad.
    assert (Hdone : done = []).
    { destruct done as [|q done']; [done|]. exfalso.
      destruct (Hkeys q) as [-> | ->]; [by left| |].
      - apply NoDup_cons_iff in Hnd as [Hnot _]. apply Hnot.
        apply in_app_iff. right. by left.
      - assert (Hd : [lit "components"] = @nil text); [|discriminate Hd].
        apply (Hord (x_ts :: done') [lit "src"] (lit "pkg.ts") []
                 [lit "components"] (lit "x.ts")); [reflexivity | left; reflexivity]. }
    subst done. split; [exact Hstd | intros q; apply Hfs; intros []].
Defined.

(** X7: a run creates no entry, removes none and turns no directory into a
    file or a file into a directory, whether it ends with an exception or
    not. *)
Theorem run_keeps_kinds (cwd : path) (os_relpath : path -> path -> exn + text)
    (w : world) (q : path) :
  kind_of (fs (run cwd os_relpath w).1 !! q) = kind_of (fs w !! q).
Proof.
  destruct (run_spec cwd os_relpath w) as (Hfs & _). cbn zeta in Hfs.
  rewrite Hfs. apply process_kind.
Qed.

(** X8: the order of the four patterns in the table does not matter: for a
    file below [src], going through them in any order gives the content
    [fix_imports] writes. *)
Theorem pattern_order_is_irrelevant (cwd fp : path)
    (ps : list (regex * text)) (s : text) :
  src_file fp = true -> Permutation ps patterns ->
  fold_left (rewrite_pattern cwd (posix_relpath cwd) fp) ps s
  = rewrite_content cwd (posix_relpath cwd) fp s.
Proof.
  intros Hfp Hperm. apply fold_rewrite_permutation; [|done].
  intros p Hp. by apply pattern_rel.
Qed.

Lemma pattern_order_is_irrelevant_witness :
  fold_left (rewrite_pattern home (posix_relpath home) x_ts) (rev patterns)
    (import_lib ++ [LF] ++ import_types)
  = rewrite_content home (posix_relpath home) x_ts
      (import_lib ++ [LF] ++ import_types).
Proof.
  apply (pattern_order_is_irrelevant home x_ts (rev patterns)).
  - reflexivity.
  - apply Permutation_sym, Permutation_rev.
Defined.

Lemma run_settles (cwd : path) (w : world) (n : nat) :
  forallb src_file (rglob (fs w)) = true ->
  (run cwd (posix_relpath cwd) w).2 = inr n ->
  forall p, In p (rglob (fs w)) ->
    settled (fs (run cwd (posix_relpath cwd) w).1) p.
Proof.
  intros Hsrc Hres p Hp.
  destruct (run_spec cwd (posix_relpath cwd) w) as (Hfs & _ & Hres').
  cbn zeta in Hfs, Hres'. rewrite Hfs. rewrite Hres' in Hres.
  apply (process_settles cwd _ w 0 n); [|done..].
  intros q Hq. rewrite forallb_forall in Hsrc. by apply Hsrc.
Qed.

(** X9: after a run that ends without an exception, every entry below [src]
    whose name matches is a file that decodes as UTF-8, has no carriage
    return, and in which none of the alias imports the patterns match
    occurs.  The tree names its entries as [rglob] does, [src/d1/.../name]. *)
Theorem run_leaves_no_alias (cwd : path) (w : world) (n : nat) (p : path) :
  forallb src_file (rglob (fs w)) = true ->
  (run cwd (posix_relpath cwd) w).2 = inr n ->
  selected p = true -> is_Some (fs w !! p) ->
  exists content,
    fs (run cwd (posix_relpath cwd) w).1 !! p = Some (File content)
    /\ utf8_valid content = true /\ no_cr content = true
    /\ has_alias_import content = false.
Proof.
  intros Hsrc Hres Hsel Hin.
  apply (run_settles cwd w n Hsrc Hres). by apply rglob_spec.
Qed.

Lemma run_leaves_no_alias_witness :
  exists content,
    fs (run home (posix_relpath home) (single x_ts import_lib)).1 !! x_ts
    = Some (File content)
    /\ utf8_valid content = true /\ no_cr content = true
    /\ has_alias_import content = false.
Proof.
  apply (run_leaves_no_alias home (single x_ts import_lib) 1 x_ts).
  - vm_compute. reflexivity.
  - vm_compute. reflexivity.
  - reflexivity.
  - vm_compute. eexists. reflexivity.
Defined.

Lemma kind_of_is_Some (e : option entry) : is_Some e <-> kind_of e <> Absent.
Proof.
  destruct e as [[|data]|]; cbn; split; try done; try (by eexists).
Qed.

Lemma rglob_after_run (cwd : path) (os_relpath : path -> path -> exn + text)
    (w : world) (q : path) :
  In q (rglob (fs (run cwd os_relpath w).1)) <-> In q (rglob (fs w)).
Proof.
  rewrite !rglob_spec, !kind_of_is_Some.
  destruct (run_spec cwd os_relpath w) as (Hfs & _). cbn zeta in Hfs.
  by rewrite Hfs, process_kind.
Qed.

(** X10: running the script again after a run that ended without an
    exception changes nothing in the tree and reports the same total. *)
Theorem run_twice (cwd : path) (w : world) (n : nat) :
  forallb src_file (rglob (fs w)) = true ->
  (run cwd (posix_relpath cwd) w).2 = inr n ->
  fs (run cwd (posix_relpath cwd) (run cwd (posix_relpath cwd) w).1).1
  = fs (run cwd (posix_relpath cwd) w).1
  /\ (run cwd (posix_relpath cwd) (run cwd (posix_relpath cwd) w).1).2 = inr n.
Proof.
  intros Hsrc Hres. set (os := posix_relpath cwd) in *.
  set (w1 := (run cwd os w).1).
  assert (Hsettled : forall p, In p (rglob (fs w1)) -> settled (fs w1) p).
  { intros p Hp. apply (run_settles cwd w n Hsrc Hres).
    by apply (rglob_after_run cwd os w). }
  destruct (process_settled cwd os (rglob (fs w1)) w1 0 Hsettled) as [Hfs2 Hres2].
  destruct (run_spec cwd os w1) as (Hfs & _ & Hr). cbn zeta in Hfs, Hr.
  rewrite Hfs, Hr, Hfs2, Hres2. split; [done|]. f_equal. cbn [Nat.add].
  assert (Hn : n = length (rglob (fs w))).
  { destruct (run_spec cwd os w) as (_ & _ & Hr'). cbn zeta in Hr'.
    rewrite Hr' in Hres.
    destruct (process_spec cwd os (rglob (fs w)) w 0) as (_ & _ & _ & H4).
    by apply H4 in Hres as [-> _]. }
  rewrite Hn. apply Permutation_length.
  apply NoDup_Permutation; [apply NoDup_ListNoDup, rglob_NoDup..|].
  intros q. rewrite !list_elem_of_In. apply (rglob_after_run cwd os w).
Qed.

Lemma run_twice_witness :
  fs (run home (posix_relpath home)
        (run home (posix_relpath home) (single x_ts import_lib)).1).1
  = fs (run home (posix_relpath home) (single x_ts import_lib)).1.
Proof.
  apply (run_twice home (single x_ts import_lib) 1).
  - vm_compute. reflexivity.
  - vm_compute. reflexivity.
Defined.

(** X11: [get_relative_path] returns [None] exactly when [os.path.relpath]
    raises.  A path it returns starts with a dot and holds no backslash, so
    it is never empty, and the test [if rel_path:] lets every computed path
    through: the round of the loop is then the replacement in the whole
    content. *)
Theorem relative_path_guard (cwd : path) (os_relpath : path -> path -> exn + text)
    (fp : path) (target : text) :
  (get_relative_path os_relpath fp (src_dir cwd ++ [target]) = None
   <-> exists e, os_relpath (src_dir cwd ++ [target]) (parent fp) = inl e)
  /\ (forall rel,
        get_relative_path os_relpath fp (src_dir cwd ++ [target]) = Some rel ->
        startswith rel [dot] = true /\ ~ In backslash rel
        /\ forall content old,
             rewrite_match cwd os_relpath fp target content old
             = str_replace content old (new_import old rel)).
Proof.
  split.
  - unfold get_relative_path.
    destruct (os_relpath (src_dir cwd ++ [target]) (parent fp)) as [e | x].
    + split; [by exists e | done].
    + split; [done | by intros [e ?]].
  - intros rel Hrel.
    assert (Hdot : startswith rel [dot] = true /\ ~ In backslash rel).
    { unfold get_relative_path in Hrel.
      destruct (os_relpath (src_dir cwd ++ [target]) (parent fp)) as [e | x];
        [done|].
      set (r := str_replace x [backslash] [slash]) in Hrel.
      assert (Hno : ~ In backslash r).
      { apply str_replace_removes_char. by intros [|[]]. }
      destruct (startswith r [dot]) eqn:E; injection Hrel as <-.
      - done.
      - split; [done|]. by intros [|[|Hin]]. }
    destruct Hdot as [Hdot Hno]. split; [done|]. split; [done|].
    intros content old. unfold rewrite_match. rewrite Hrel.
    by destruct rel.
Qed.

(** X12: the entries a run takes are those named [src/.../name] in which
    [.ts] occurs somewhere in the name: [x.ts] and [x.tsx], and also
    [x.ts.bak] or [x.tsv]. *)
Theorem selected_spec (p : path) :
  selected p = true
  <-> exists mid a b, p = lit "src" :: mid ++ [a ++ lit ".ts" ++ b].
Proof.
  unfold selected, glob_ts. rewrite andb_true_iff, contains_spec. split.
  - intros [Hsrc (a & b & Hname)].
    destruct p as [|root [|x rest]]; [done..|].
    cbn [under_src] in Hsrc. apply bool_decide_eq_true in Hsrc as ->.
    exists (removelast (x :: rest)), a, b. rewrite <- Hname.
    f_equal. change (List.last (lit "src" :: x :: rest) [])
      with (List.last (x :: rest) []).
    by apply app_removelast_last.
  - intros (mid & a & b & ->). split.
    + destruct mid; cbn; by apply bool_decide_eq_true.
    + exists a, b.
      change (lit "src" :: mid ++ [a ++ lit ".ts" ++ b])
        with ((lit "src" :: mid) ++ [a ++ lit ".ts" ++ b]).
      by rewrite last_last.
Qed.

(** X13: a call of [fix_imports] touches its own file only: what the tree
    holds at every other path is unchanged, nothing is printed, and the only
    path opened is that of the file. *)
Theorem fix_imports_touches_one_file (cwd : path)
    (os_relpath : path -> path -> exn + text) (w : world) (fp q : path) :
  q <> fp ->
  fs (fix_imports cwd os_relpath w fp).1 !! q = fs w !! q
  /\ stdout (fix_imports cwd os_relpath w fp).1 = stdout w
  /\ (In q (opened (fix_imports cwd os_relpath w fp).1) -> In q (opened w)).
Proof.
  intros Hne.
  destruct (fix_imports_frame cwd os_relpath w fp) as (Hfs & (l & Hop & Hl) & _).
  split; [by apply Hfs|]. split; [apply fix_imports_stdout|].
  rewrite Hop, in_app_iff. intros [? | [? | Hin]]; [done | congruence |].
  by apply Hl in Hin.
Qed.

Lemma fix_imports_touches_one_file_witness :
  fs (fix_imports home (posix_relpath home) with_directory x_ts).1
    !! [lit "src"; lit "pkg.ts"]
  = fs with_directory !! [lit "src"; lit "pkg.ts"].
Proof.
  apply (fix_imports_touches_one_file home (posix_relpath home) with_directory
           x_ts [lit "src"; lit "pkg.ts"]).
  discriminate.
Defined.
